(** * Business search server: listing normalisation, chat commands, delivery

    A shallow embedding of the two deployment variants of the server:

    - [src/api/server.js]: Express routes plus a Telegram webhook handler
      (module [Webhook] below);
    - [src/unnamed/part_000]: the same routes with a process-wide "latest
      result" slot and a long-polling Telegram bot (module [Polling]).

    JavaScript strings are modelled as [string]; a character stands for one
    UTF-16 code unit in the range 0..255.  JavaScript numbers are modelled by
    their integer values ([JNum]) together with [JNaN]; fractional doubles and
    their printing are outside the model.  Listing fields are JSON scalars. *)

From Stdlib Require Import ZArith Ascii Lia.
From Stdlib Require Import Numbers.DecimalString.
From stdpp Require Import base option list gmap strings.

(** ** JavaScript values *)

Inductive jsval : Type :=
  | JUndefined
  | JNull
  | JBool (b : bool)
  | JNum (n : Z)
  | JNaN
  | JStr (s : string).

#[global] Instance jsval_eq_dec : EqDecision jsval.
Proof. solve_decision. Defined.

(** ToBoolean: [undefined], [null], [false], [0], [NaN] and [''] are falsy. *)
Definition truthy (v : jsval) : bool :=
  match v with
  | JUndefined | JNull | JNaN => false
  | JBool b => b
  | JNum n => negb (n =? 0)%Z
  | JStr s => negb (String.eqb s "")
  end.

(** The operator [a || b]. *)
Definition js_or (a b : jsval) : jsval := if truthy a then a else b.

Infix "|||" := js_or (at level 50, left associativity).

(** A listing object as parsed from the upstream JSON response. *)
Abbreviation rawRecord := (gmap string jsval).

(** Property read [b.k]: a missing property reads as [undefined]. *)
Definition get (b : rawRecord) (k : string) : jsval := default JUndefined (b !! k).

(** ** Record normaliser ([app.post('/search')], the [map] callback) *)

Definition normalize (b : rawRecord) : gmap string jsval :=
  <["name" := get b "title" ||| get b "name" ||| JStr "No Name"]>
  (<["address" := get b "address" ||| get b "street_address" ||| JStr "N/A"]>
  (<["phone" := get b "phone" ||| JStr "N/A"]>
  (<["website" := get b "website" ||| get b "url" ||| JStr "N/A"]>
  (<["rating" := get b "rating" ||| JStr "N/A"]>
  (<["reviews" := get b "reviews" ||| get b "review_count" ||| JStr "N/A"]> ∅))))).

(** The fallback chains as the specification declares them: canonical field,
    source fields in priority order, default sentinel. *)
Definition fallback_table : list (string * list string * jsval) :=
  [ ("name", ["title"; "name"], JStr "No Name");
    ("address", ["address"; "street_address"], JStr "N/A");
    ("phone", ["phone"], JStr "N/A");
    ("website", ["website"; "url"], JStr "N/A");
    ("rating", ["rating"], JStr "N/A");
    ("reviews", ["reviews"; "review_count"], JStr "N/A") ].

(** What "first present field of the chain, else the default" means for one
    chain; a value is present when it is truthy. *)
Definition chain_choice (b : rawRecord) (chain : list string) (dflt v : jsval) : Prop :=
  (∃ pre k post,
      chain = pre ++ k :: post
      ∧ Forall (λ k', truthy (get b k') = false) pre
      ∧ truthy (get b k) = true
      ∧ v = get b k)
  ∨ (Forall (λ k', truthy (get b k') = false) chain ∧ v = dflt).

Definition canonical_fields : list string :=
  ["name"; "address"; "phone"; "website"; "rating"; "reviews"].

(** ** Strings *)

Definition code (c : ascii) : N := N_of_ascii c.

Definition in_range (lo hi : N) (c : ascii) : bool :=
  ((lo <=? code c) && (code c <=? hi))%N.

Definition is_lower (c : ascii) : bool := in_range 97 122 c.
Definition is_upper (c : ascii) : bool := in_range 65 90 c.
Definition is_digit (c : ascii) : bool := in_range 48 57 c.

Fixpoint one_of (cs : string) (c : ascii) : bool :=
  match cs with
  | String c' cs' => Ascii.eqb c c' || one_of cs' c
  | EmptyString => false
  end.

Fixpoint string_forall (p : ascii → bool) (s : string) : bool :=
  match s with
  | String c s' => p c && string_forall p s'
  | EmptyString => true
  end.

(** WhiteSpace and LineTerminator code units below 256: TAB, LF, VT, FF, CR,
    SP and NBSP. *)
Definition is_space (c : ascii) : bool :=
  in_range 9 13 c || (code c =? 32)%N || (code c =? 160)%N.

Fixpoint trimStart (s : string) : string :=
  match s with
  | String c s' => if is_space c then trimStart s' else s
  | EmptyString => EmptyString
  end.

Fixpoint trimEnd (s : string) : string :=
  match s with
  | String c s' =>
      match trimEnd s' with
      | EmptyString => if is_space c then EmptyString else String c EmptyString
      | t => String c t
      end
  | EmptyString => EmptyString
  end.

(** [String.prototype.trim] *)
Definition trim (s : string) : string := trimEnd (trimStart s).

(** [s.split(sep)] for a one-character separator; never returns the empty
    list ([''.split(',')] is [['']]). *)
Fixpoint split (sep : ascii) (s : string) : list string :=
  match s with
  | EmptyString => [EmptyString]
  | String c s' =>
      if Ascii.eqb c sep then EmptyString :: split sep s'
      else match split sep s' with
           | seg :: segs => String c seg :: segs
           | [] => [String c EmptyString]
           end
  end.

Definition shift_code (f : N → N) (c : ascii) : ascii := ascii_of_N (f (code c)).

Definition lower_char (c : ascii) : ascii :=
  if is_upper c || in_range 192 214 c || in_range 216 222 c
  then shift_code (λ n, n + 32)%N c else c.

Definition upper_char (c : ascii) : ascii :=
  if is_lower c || in_range 224 246 c || in_range 248 254 c
  then shift_code (λ n, n - 32)%N c else c.

Fixpoint map_string (f : ascii → ascii) (s : string) : string :=
  match s with
  | String c s' => String (f c) (map_string f s')
  | EmptyString => EmptyString
  end.

(** [String.prototype.toLowerCase] *)
Definition toLowerCase : string → string := map_string lower_char.

(** [String.prototype.toUpperCase]; the three code units below 256 whose
    upper case leaves that range (181, 223, 255) are kept as they are. *)
Definition toUpperCase : string → string := map_string upper_char.

(** [s.startsWith(c)] for a one-character string [c]. *)
Definition startsWith (c : ascii) (s : string) : bool :=
  match s with
  | String c' _ => Ascii.eqb c' c
  | EmptyString => false
  end.

(** [s.slice(1)] *)
Definition slice1 (s : string) : string :=
  match s with
  | String _ s' => s'
  | EmptyString => EmptyString
  end.

(** [arr.join(sep)] on an array of strings. *)
Fixpoint join (sep : string) (l : list string) : string :=
  match l with
  | [] => EmptyString
  | [s] => s
  | s :: l' => s +:+ sep +:+ join sep l'
  end.

(** [arr.includes(s)] on an array of strings. *)
Definition includes (l : list string) (s : string) : bool :=
  existsb (String.eqb s) l.

(** [[...new Set(arr)]]: first occurrences, in insertion order. *)
Fixpoint setOf (l : list string) : list string :=
  match l with
  | [] => []
  | s :: l' => s :: filter (λ t, t ≠ s) (setOf l')
  end.

(** [Number.prototype.toString] on integer values: the decimal digits, as
    JavaScript prints integers below 10^21 in magnitude. *)
Definition numberToString (n : Z) : string := NilZero.string_of_int (Z.to_int n).

(** ToString, as applied by template literals and by [v.toString()]. *)
Definition toString (v : jsval) : string :=
  match v with
  | JUndefined => "undefined"
  | JNull => "null"
  | JBool true => "true"
  | JBool false => "false"
  | JNum n => numberToString n
  | JNaN => "NaN"
  | JStr s => s
  end.

(** [v?.toString()] *)
Definition opt_toString (v : jsval) : jsval :=
  match v with
  | JUndefined | JNull => JUndefined
  | _ => JStr (toString v)
  end.

(** ** Regular expressions

    The two patterns of the program are sequences of quantified character
    classes.  Matching follows the backtracking semantics of RegExp: a greedy
    quantifier first tries to take one more character and falls back to the
    continuation when that fails. *)

Record atom := Atom { cls : ascii → bool; rmin : nat; rmax : option nat }.

Abbreviation regex := (list atom).

Definition once (p : ascii → bool) : atom := Atom p 1 (Some 1).
Definition plus (p : ascii → bool) : atom := Atom p 1 None.
Definition at_least (n : nat) (p : ascii → bool) : atom := Atom p n None.

Definition may_repeat (max : option nat) : bool :=
  match max with Some O => false | _ => true end.

Definition continuation := string → option (string * string).

(** [repeat p min max k s]: match [p{min,max}] greedily at the start of [s],
    then [k]; the result is the matched text and the unread rest. *)
Fixpoint repeat_match (p : ascii → bool) (min : nat) (max : option nat)
    (k : continuation) (s : string) : option (string * string) :=
  let stop := match min with O => k s | S _ => None end in
  match s with
  | String c s' =>
      if p c && may_repeat max then
        match repeat_match p (pred min) (pred <$> max) k s' with
        | Some (m, rest) => Some (String c m, rest)
        | None => stop
        end
      else stop
  | EmptyString => stop
  end.

Fixpoint match_here (r : regex) : continuation :=
  match r with
  | [] => λ s, Some (EmptyString, s)
  | a :: r' => repeat_match (cls a) (rmin a) (rmax a) (match_here r')
  end.

(** [s.match(r)] with the [g] flag: the successive leftmost matches, each
    search resuming where the previous match ended ([skip] counts the
    characters of the current match still to be passed over). *)
Fixpoint match_from (r : regex) (skip : nat) (s : string) : list string :=
  match s with
  | String c s' =>
      match skip with
      | S n => match_from r n s'
      | O =>
          match match_here r s with
          | Some (m, _) => m :: match_from r (pred (String.length m)) s'
          | None => match_from r 0 s'
          end
      end
  | EmptyString =>
      match skip, match_here r EmptyString with
      | O, Some (m, _) => [m]
      | _, _ => []
      end
  end.

Definition matchAll (r : regex) (s : string) : list string := match_from r 0 s.

(** [s.replace(r, f)] with the [g] flag, [f] computing the replacement text
    from the matched text. *)
Fixpoint replace_from (r : regex) (f : string → string) (skip : nat) (s : string) : string :=
  match s with
  | String c s' =>
      match skip with
      | S n => replace_from r f n s'
      | O =>
          match match_here r s with
          | Some (EmptyString, _) => f EmptyString +:+ String c (replace_from r f 0 s')
          | Some (m, _) => f m +:+ replace_from r f (pred (String.length m)) s'
          | None => String c (replace_from r f 0 s')
          end
      end
  | EmptyString =>
      match skip, match_here r EmptyString with
      | O, Some (m, _) => f m
      | _, _ => EmptyString
      end
  end.

Definition replaceAll (r : regex) (f : string → string) (s : string) : string :=
  replace_from r f 0 s.

(** *** [escapeMarkdown] *)

(** The class [[_*[\]()~`>#+\-=|{}.!]]. *)
Definition markdownClass : ascii → bool := one_of "_*[]()~`>#+-=|{}.!".

Definition markdownRegex : regex := [once markdownClass].

Inductive exn : Type :=
  | TypeError (what : string)
  | NetworkError.

(** [escapeMarkdown(text)]: falsy input gives [''], a string is escaped, and
    any other truthy value has no [replace] method. *)
Definition escapeMarkdown (text : jsval) : exn + string :=
  if negb (truthy text) then inr EmptyString
  else match text with
       | JStr s => inr (replaceAll markdownRegex (λ m, "\" +:+ m) s)
       | _ => inl (TypeError "text.replace is not a function")
       end.

(** *** Email extraction *)

Definition is_letter (c : ascii) : bool := is_lower c || is_upper c.

(** [[a-zA-Z0-9._%+-]] *)
Definition localClass (c : ascii) : bool := is_letter c || is_digit c || one_of "._%+-" c.

(** [[a-zA-Z0-9.-]] *)
Definition domainClass (c : ascii) : bool := is_letter c || is_digit c || one_of ".-" c.

(** [[a-z]] under the [i] flag *)
Definition tldClass (c : ascii) : bool := is_letter c.

(** [/[a-zA-Z0-9._%+-]+@[a-zA-Z0-9.-]+\.[a-z]{2,}/gi] *)
Definition emailRegex : regex :=
  [ plus localClass; once (one_of "@"); plus domainClass; once (one_of ".");
    at_least 2 tldClass ].

(** [extractEmails(text)]; a value without a [match] method throws. *)
Definition extractEmails (data : jsval) : exn + list string :=
  match data with
  | JStr s => inr (setOf (matchAll emailRegex s))
  | _ => inl (TypeError "text.match is not a function")
  end.

(** ** Configuration tables *)

Definition countryMap : list (string * string) :=
  [("usa", "us"); ("uk", "gb"); ("australia", "au"); ("canada", "ca")].

Definition allowedEngines : list string :=
  ["google_maps"; "google"; "bing_maps"; "apple_maps"].

(** [Object.keys(countryMap)] *)
Definition countryMapKeys : list string := map fst countryMap.

(** Property names every plain object inherits from [Object.prototype]. *)
Definition objectPrototypeKeys : list string :=
  [ "constructor"; "__proto__"; "hasOwnProperty"; "isPrototypeOf";
    "propertyIsEnumerable"; "toLocaleString"; "toString"; "valueOf";
    "__defineGetter__"; "__defineSetter__"; "__lookupGetter__";
    "__lookupSetter__" ].

(** The value of [countryMap[k]]: an own region code, an inherited member
    (an object, hence truthy), or [undefined]. *)
Inductive region : Type :=
  | RUndefined
  | RCode (gl : string)
  | RInherited (k : string).

Fixpoint assoc (l : list (string * string)) (k : string) : option string :=
  match l with
  | [] => None
  | (k', v) :: l' => if String.eqb k k' then Some v else assoc l' k
  end.

Definition countryMap_get (k : string) : region :=
  match assoc countryMap k with
  | Some gl => RCode gl
  | None => if includes objectPrototypeKeys k then RInherited k else RUndefined
  end.

Definition region_truthy (r : region) : bool :=
  match r with
  | RUndefined => false
  | RCode gl => negb (String.eqb gl "")
  | RInherited _ => true
  end.

(** ** Effects: outbound requests, exceptions *)

(** Query parameters of the search API request (the API key, read from the
    environment, is left out). *)
Record serpParams := SerpParams {
  p_engine : string;
  p_q : string;
  p_gl : option region;
  p_hl : option string }.

(** The fields of the search API response the program reads; [None] is an
    absent field.  A field that is present is a list of listing objects, as
    the search API answers: the worlds below range over such answers, and
    over failed requests. *)
Record serpData := SerpData {
  local_results : option (list rawRecord);
  organic_results : option (list rawRecord);
  places : option (list rawRecord) }.

Record message := Message {
  chat_id : Z;
  text : string;
  parse_mode : option string }.

(** The outside world: the search API, the scraped web sites ([None] is a
    failed request) and whether the chat platform accepts a message. *)
Record world := World {
  serp : serpParams → option serpData;
  page : jsval → option jsval;
  telegram : message → bool }.

Inductive event : Type :=
  | SerpRequest (p : serpParams)
  | PageRequest (url : jsval)
  | TelegramSend (m : message).

(** The mutable state of the process: the "latest result" slots of
    [src/unnamed/part_000]. *)
Record appState := AppState {
  latestBusinesses : list (gmap string jsval);
  latestFilename : string }.

Definition initial_state : appState := AppState [] "businesses.xlsx".

(** What a computation leaves behind: the new state, the outbound requests it
    issued, in order, and its value or the exception it threw. *)
Record outcome (A : Type) := Outcome {
  state_of : appState;
  log : list event;
  result : exn + A }.

Arguments Outcome {A} _ _ _.
Arguments state_of {A} _.
Arguments log {A} _.
Arguments result {A} _.

Definition M (A : Type) : Type := appState → outcome A.

Definition ret {A} (a : A) : M A := λ st, Outcome st [] (inr a).

Definition throw {A} (e : exn) : M A := λ st, Outcome st [] (inl e).

Definition bind {A B} (m : M A) (k : A → M B) : M B :=
  λ st,
    let o := m st in
    match result o with
    | inr a =>
        let o' := k a (state_of o) in
        Outcome (state_of o') (log o ++ log o') (result o')
    | inl e => Outcome (state_of o) (log o) (inl e)
    end.

Definition try_catch {A} (m : M A) (handler : exn → M A) : M A :=
  λ st,
    let o := m st in
    match result o with
    | inl e =>
        let o' := handler e (state_of o) in
        Outcome (state_of o') (log o ++ log o') (result o')
    | inr _ => o
    end.

Definition emit (e : event) : M unit := λ st, Outcome st [e] (inr tt).

Definition set_latestBusinesses (bs : list (gmap string jsval)) : M unit :=
  λ st, Outcome (AppState bs (latestFilename st)) [] (inr tt).

Definition set_latestFilename (name : string) : M unit :=
  λ st, Outcome (AppState (latestBusinesses st) name) [] (inr tt).

Definition read_state : M appState := λ st, Outcome st [] (inr st).

Definition lift {A} (r : exn + A) : M A :=
  match r with
  | inr a => ret a
  | inl e => throw e
  end.

Notation "'let*' x ':=' m 'in' k" := (bind m (λ x, k))
  (at level 10, x pattern, m at level 100, k at level 200).
Notation "m ';;' k" := (bind m (λ _, k))
  (at level 100, k at level 200, right associativity).

(** The chat messages among the requests of a log. *)
Definition sent (tr : list event) : list message :=
  omap (λ e, match e with TelegramSend m => Some m | _ => None end) tr.

(** [arr1 || arr2]: an array is truthy even when empty. *)
Definition arr_or {A} (a : option (list A)) (b : list A) : list A := default b a.

(** Engine-specific extraction of the result list. *)
Definition resultsOf (engine : string) (data : serpData) : list rawRecord :=
  if String.eqb engine "google_maps" then arr_or (local_results data) []
  else if String.eqb engine "google"
       then arr_or (local_results data) (arr_or (organic_results data) [])
  else if String.eqb engine "bing_maps" || String.eqb engine "apple_maps"
       then arr_or (places data) []
  else [].

Definition serpRequest (q : string) (gl : region) (engine : string) : serpParams :=
  let localized := String.eqb engine "google_maps" || String.eqb engine "google" in
  {| p_engine := engine; p_q := q;
     p_gl := if localized then Some gl else None;
     p_hl := if localized then Some "en" else None |}.

(** [await axios.get('https://serpapi.com/search.json', { params })] *)
Definition axios_get_serp (w : world) (params : serpParams) : M serpData :=
  emit (SerpRequest params);;
  match serp w params with
  | Some data => ret data
  | None => throw NetworkError
  end.

(** [fetchBusinesses(searchQuery, region, engine)]: any failure is swallowed
    into the empty list. *)
Definition fetchBusinesses (w : world) (searchQuery : string) (gl : region)
    (engine : string) : M (list rawRecord) :=
  try_catch
    (let* data := axios_get_serp w (serpRequest searchQuery gl engine) in
     ret (resultsOf engine data))
    (λ _, ret []).

(** [await axios.get(url, { timeout: 8000 })], returning [res.data]. *)
Definition axios_get_page (w : world) (url : jsval) : M jsval :=
  emit (PageRequest url);;
  match page w url with
  | Some data => ret data
  | None => throw NetworkError
  end.

(** [scrapeEmailsFromWebsite(url)] *)
Definition scrapeEmailsFromWebsite (w : world) (url : jsval) : M (list string) :=
  try_catch
    (let* data := axios_get_page w url in lift (extractEmails data))
    (λ _, ret []).

(** ** HTTP responses *)

Inductive payload : Type :=
  | JsonError (error : string)
  | JsonBusinesses (businesses : list (gmap string jsval))
  | Text (s : string)
  | Workbook (sheet : string) (rows : list (gmap string jsval))
  | ErrorPage (e : exn).

Record response := Response {
  status : nat;
  headers : list (string * string);
  body : payload }.

Definition send_json (code : nat) (p : payload) : response := Response code [] p.
Definition send_text (code : nat) (s : string) : response := Response code [] (Text s).

(** The request body of [POST /search] after destructuring. *)
Record searchBody := SearchBody {
  b_keyword : jsval;
  b_country : jsval;
  b_city : jsval;
  b_engine : jsval }.

(** [allowedEngines.includes(engine) ? engine : 'google_maps'] *)
Definition selectedEngine (engine : jsval) : string :=
  match engine with
  | JStr e => if includes allowedEngines e then e else "google_maps"
  | _ => "google_maps"
  end.

(** [v.toLowerCase()], [v.trim()]: only strings have the method. *)
Definition method_on_string (name : string) (f : string → string) (v : jsval) : exn + string :=
  match v with
  | JStr s => inr (f s)
  | _ => inl (TypeError (name +:+ " is not a function"))
  end.

(** [city ? `${keyword} in ${city}, ${country}` : `${keyword} in ${country}`] *)
Definition searchQuery (keyword city country : jsval) : string :=
  if truthy city
  then toString keyword +:+ " in " +:+ toString city +:+ ", " +:+ toString country
  else toString keyword +:+ " in " +:+ toString country.

(** ** Chat commands *)

Record command := Command {
  c_keyword : string;
  c_city : string;
  c_country : string;
  c_engine : string }.

(** [text.slice(1).split(',').map(p => p.trim())] *)
Definition commandParts (text : string) : list string :=
  map trim (split "," (slice1 text)).

(** [parts[i]], read only where [i] is within the array. *)
Definition part (parts : list string) (i : nat) : string := nth i parts EmptyString.

Definition assignFields (parts : list string) : command :=
  let n := length parts in
  {| c_keyword := part parts 0;
     c_city := if 4 <=? n then part parts 1
               else if n =? 3 then part parts 1 else EmptyString;
     c_country := if 4 <=? n then toLowerCase (part parts 2)
                  else if n =? 3 then toLowerCase (part parts 2)
                  else toLowerCase (part parts 1);
     c_engine := if n =? 4 then toLowerCase (part parts 3) else "google_maps" |}.

Inductive parseError : Type :=
  | BadFormat
  | InvalidCountry
  | InvalidEngine.

(** The parsing steps of the chat handlers, from the command text to the
    validated request; the handlers differ in the country check only. *)
Definition parseCommand (validCountry : string → bool) (text : string)
    : parseError + command :=
  let parts := commandParts text in
  if length parts <? 2 then inl BadFormat
  else
    let cmd := assignFields parts in
    if negb (validCountry (c_country cmd)) then inl InvalidCountry
    else if negb (includes allowedEngines (c_engine cmd)) then inl InvalidEngine
    else inr cmd.

Definition nl : string := String (ascii_of_N 10) EmptyString.

Definition formatHelp : string :=
  "Format: / keyword , city , country [, engine]" +:+ nl +:+
  "Example: / seo , new york , usa , google_maps".

Definition markdown : option string := Some "Markdown".

(** [arr.map(f)] for a callback that may throw. *)
Fixpoint mapM_ {A B} (f : A → M B) (l : list A) : M (list B) :=
  match l with
  | [] => ret []
  | a :: l' => let* b := f a in let* bs := mapM_ f l' in ret (b :: bs)
  end.

(** [escapeMarkdown(b.rating?.toString() || 'N/A')] *)
Definition renderedRating (b : rawRecord) : exn + string :=
  escapeMarkdown (opt_toString (get b "rating") ||| JStr "N/A").

(** [escapeMarkdown(b.reviews?.toString() || '0')] *)
Definition renderedReviews (b : rawRecord) : exn + string :=
  escapeMarkdown (opt_toString (get b "reviews") ||| JStr "0").

(** The message block of one listing. *)
Definition renderRecord (b : rawRecord) (emails : list string) : M string :=
  let* name := lift (escapeMarkdown (get b "title" ||| get b "name" ||| JStr "No Name")) in
  let* address := lift (escapeMarkdown (get b "address" ||| get b "street_address" ||| JStr "N/A")) in
  let* phone := lift (escapeMarkdown (get b "phone" ||| JStr "N/A")) in
  let* website := lift (escapeMarkdown (get b "website" ||| get b "url" ||| JStr "N/A")) in
  let* rating := lift (renderedRating b) in
  let* reviews := lift (renderedReviews b) in
  let* escaped := mapM_ (λ e, lift (escapeMarkdown (JStr e))) emails in
  ret ("*" +:+ name +:+ "*" +:+ nl +:+
       "Address: " +:+ address +:+ nl +:+
       "Phone: " +:+ phone +:+ nl +:+
       "Website: " +:+ website +:+ nl +:+
       "Rating: " +:+ rating +:+ " (" +:+ reviews +:+ " reviews)" +:+ nl +:+
       "Emails: " +:+ (if length emails =? 0 then "None found" else join ", " escaped)
       +:+ nl).

(** The delivery loop of the chat handlers over the records kept for
    delivery; [send] is the awaited send of the variant. *)
Fixpoint deliver (send : message → M unit) (w : world) (chatId : Z)
    (bs : list rawRecord) : M unit :=
  match bs with
  | [] => ret tt
  | b :: bs' =>
      let* emails :=
        if truthy (get b "website")
        then scrapeEmailsFromWebsite w (get b "website")
        else ret [] in
      let* msg := renderRecord b emails in
      send (Message chatId msg markdown);;
      deliver send w chatId bs'
  end.

(** [businessesRaw.slice(0, 10)] *)
Definition slice_0_10 {A} (l : list A) : list A := take 10 l.

(** The argument of the export route: the [businesses] member of the body. *)
Inductive arrayArg : Type :=
  | NotArray (v : jsval)
  | Array (rows : list (gmap string jsval)).

Definition arg_truthy (a : arrayArg) : bool :=
  match a with NotArray v => truthy v | Array _ => true end.

Definition isArray (a : arrayArg) : bool :=
  match a with NotArray _ => false | Array _ => true end.

Definition rows_of (a : arrayArg) : list (gmap string jsval) :=
  match a with NotArray _ => [] | Array rows => rows end.

Definition dq : string := String (ascii_of_N 34) EmptyString.

Definition xlsxHeaders (filename : string) : list (string * string) :=
  [ ("Content-Disposition", "attachment; filename=" +:+ dq +:+ filename +:+ dq);
    ("Content-Type", "application/vnd.openxmlformats-officedocument.spreadsheetml.sheet") ].

(** The code units [res.setHeader] accepts in a header value: TAB, 32..126
    and 128..255. *)
Definition header_char (c : ascii) : bool :=
  (code c =? 9)%N || in_range 32 126 c || in_range 128 255 c.

Definition header_safe (v : string) : bool := string_forall header_char v.

(** An exception that leaves a synchronous route handler: the framework
    answers 500 with its error page. *)
Definition uncaught (e : exn) : response := Response 500 [] (ErrorPage e).

(** The workbook response: one sheet named [Businesses] built from the rows.
    [res.setHeader] throws on a [Content-Disposition] value that holds a code
    unit outside the accepted ones, and nothing in the export handlers
    catches it. *)
Definition send_workbook (filename : string) (rows : list (gmap string jsval)) : response :=
  if header_safe ("attachment; filename=" +:+ dq +:+ filename +:+ dq)
  then Response 200 (xlsxHeaders filename) (Workbook "Businesses" rows)
  else uncaught (TypeError "Invalid character in header content").

(** ** [src/api/server.js] *)

Module Webhook.

(** [app.post('/search')] *)
Definition search (w : world) (req : searchBody) : M response :=
  if negb (truthy (b_keyword req)) || negb (truthy (b_country req))
  then ret (send_json 400 (JsonError "Keyword and country are required"))
  else
    let* lc := lift (method_on_string "country.toLowerCase" toLowerCase (b_country req)) in
    let gl := countryMap_get lc in
    if negb (region_truthy gl)
    then ret (send_json 400 (JsonError "Invalid country selected"))
    else
      let engine := selectedEngine (b_engine req) in
      let q := searchQuery (b_keyword req) (b_city req) (b_country req) in
      try_catch
        (let* rawResults := fetchBusinesses w q gl engine in
         ret (send_json 200 (JsonBusinesses (map normalize rawResults))))
        (λ _, ret (send_json 500 (JsonError "Failed to fetch data from SerpAPI"))).

(** The body of [POST /download-excel]; [filename] defaults when it is
    [undefined]. *)
Record exportBody := ExportBody {
  x_businesses : arrayArg;
  x_filename : jsval }.

(** [app.post('/download-excel')] *)
Definition download_excel (req : exportBody) : response :=
  let businesses := x_businesses req in
  let filename :=
    match x_filename req with
    | JUndefined => JStr "businesses.xlsx"
    | v => v
    end in
  if negb (arg_truthy businesses) || negb (isArray businesses)
     || (length (rows_of businesses) =? 0)
  then send_text 400 "No data to export"
  else send_workbook (toString filename) (rows_of businesses).

(** [sendTelegramMessage]: a failed send is logged and swallowed. *)
Definition sendTelegramMessage (w : world) (m : message) : M unit :=
  try_catch
    (emit (TelegramSend m);;
     if telegram w m then ret tt else throw NetworkError)
    (λ _, ret tt).

Definition validCountry (country : string) : bool := includes countryMapKeys country.

(** The Telegram webhook handler, on the text of the incoming message. *)
Definition webhook (w : world) (chatId : Z) (text : string) : M response :=
  if String.eqb text EmptyString then ret (send_text 200 "No message")
  else if negb (startsWith "/" text) then ret (send_text 200 "Ignored")
  else
    match parseCommand validCountry text with
    | inl BadFormat =>
        sendTelegramMessage w (Message chatId formatHelp None);;
        ret (send_text 200 "Bad format")
    | inl InvalidCountry =>
        sendTelegramMessage w
          (Message chatId "Allowed countries: usa, uk, australia, canada" None);;
        ret (send_text 200 "Invalid country")
    | inl InvalidEngine =>
        sendTelegramMessage w
          (Message chatId ("Allowed engines: " +:+ join ", " allowedEngines) None);;
        ret (send_text 200 "Invalid engine")
    | inr (Command keyword city country engine) =>
        let gl := countryMap_get country in
        let q := searchQuery (JStr keyword) (JStr city) (JStr country) in
        let* k := lift (escapeMarkdown (JStr keyword)) in
        let* c := lift (escapeMarkdown (JStr city ||| JStr "N/A")) in
        let* u := lift (escapeMarkdown (JStr (toUpperCase country))) in
        sendTelegramMessage w
          (Message chatId
             ("Searching for *" +:+ k +:+ "* in *" +:+ c +:+ ", " +:+ u
              +:+ "* using *" +:+ engine +:+ "*") markdown);;
        let* early :=
          try_catch
            (let* businessesRaw := fetchBusinesses w q gl engine in
             if length businessesRaw =? 0 then
               sendTelegramMessage w (Message chatId "No businesses found." None);;
               ret (Some (send_text 200 "No businesses found"))
             else
               deliver (sendTelegramMessage w) w chatId (slice_0_10 businessesRaw);;
               ret None)
            (λ _,
               sendTelegramMessage w
                 (Message chatId "Something went wrong. Try again later." None);;
               ret None) in
        match early with
        | Some r => ret r
        | None => ret (send_text 200 "OK")
        end
    end.

(** What the handler reads of the request body: [body.message] ([None]
    when it is missing), the [text] of the message, and the id of its
    [chat] ([None] for a message without chat). *)
Record incoming := Incoming {
  i_text : jsval;
  i_chat : option Z }.

(** The handler on the request body: the guards on the message and its
    text, the read of [body.message.chat.id], and the call
    [text.startsWith('/')], a method only strings have; none of them is
    inside a [try] block. *)
Definition webhook_request (w : world) (message : option incoming) : M response :=
  match message with
  | None => ret (send_text 200 "No message")
  | Some msg =>
      if negb (truthy (i_text msg)) then ret (send_text 200 "No message")
      else
        match i_chat msg with
        | None => throw (TypeError "Cannot read properties of undefined (reading 'id')")
        | Some chatId =>
            match i_text msg with
            | JStr text => webhook w chatId text
            | _ => throw (TypeError "text.startsWith is not a function")
            end
        end
  end.

End Webhook.

(** ** [src/unnamed/part_000] *)

Module Polling.

(** [/\s+/g] *)
Definition spacesRegex : regex := [plus is_space].

(** [v.trim().replace(/\s+/g, '_')] *)
Definition safe (name : string) (v : jsval) : exn + string :=
  method_on_string name (λ s, replaceAll spacesRegex (λ _, "_") (trim s)) v.

(** [app.post('/search')]: as in the other variant, and the result and a
    file name derived from the request are kept for a later export. *)
Definition search (w : world) (req : searchBody) : M response :=
  if negb (truthy (b_keyword req)) || negb (truthy (b_country req))
  then ret (send_json 400 (JsonError "Keyword and country are required"))
  else
    let* lc := lift (method_on_string "country.toLowerCase" toLowerCase (b_country req)) in
    let gl := countryMap_get lc in
    if negb (region_truthy gl)
    then ret (send_json 400 (JsonError "Invalid country selected"))
    else
      let engine := selectedEngine (b_engine req) in
      let q := searchQuery (b_keyword req) (b_city req) (b_country req) in
      try_catch
        (let* businessesRaw := fetchBusinesses w q gl engine in
         let businesses := map normalize businessesRaw in
         set_latestBusinesses businesses;;
         let* safeKeyword := lift (safe "keyword.trim" (b_keyword req)) in
         let* safeCity :=
           if truthy (b_city req) then lift (safe "city.trim" (b_city req))
           else ret EmptyString in
         let* safeCountry := lift (safe "country.trim" (b_country req)) in
         set_latestFilename
           (safeKeyword
            +:+ (if negb (String.eqb safeCity EmptyString) then "_" +:+ safeCity
                 else EmptyString)
            +:+ "_" +:+ safeCountry +:+ ".xlsx");;
         ret (send_json 200 (JsonBusinesses businesses)))
        (λ _, ret (send_json 500 (JsonError "Failed to fetch data from SerpAPI"))).

(** [app.get('/download-excel')]: exports the kept result. *)
Definition download_excel : M response :=
  let* st := read_state in
  if length (latestBusinesses st) =? 0
  then ret (send_text 400 "No data to export")
  else ret (send_workbook (latestFilename st) (latestBusinesses st)).

(** [bot.sendMessage(...)] without [await]: the request is issued and its
    outcome is not observed. *)
Definition sendMessage (m : message) : M unit := emit (TelegramSend m).

(** The promise of a send settles: a refused send rejects. *)
Definition settle (w : world) (m : message) : M unit :=
  if telegram w m then ret tt else throw NetworkError.

(** [return bot.sendMessage(...)] outside a [try] block: the request is
    issued and the promise of the listener adopts the promise of the send. *)
Definition return_sendMessage (w : world) (m : message) : M unit :=
  sendMessage m;; settle w m.

(** [await bot.sendMessage(...)]: a rejected send throws. *)
Definition await_sendMessage (w : world) (m : message) : M unit :=
  emit (TelegramSend m);;
  if telegram w m then ret tt else throw NetworkError.

Definition validCountry (country : string) : bool :=
  region_truthy (countryMap_get country).

(** The [bot.on('message')] listener, on the text of the message (the
    empty string stands for a message without text).  A send the listener
    returns from inside the [try] block is not awaited there, so its
    rejection passes the [catch] clause and rejects the listener.  The
    [bot.onText(/\/start/)] listener, which answers on its own, is not part
    of it. *)
Definition onMessage (w : world) (chatId : Z) (text : string) : M unit :=
  if String.eqb text EmptyString || negb (startsWith "/" text) then ret tt
  else
    match parseCommand validCountry text with
    | inl BadFormat => return_sendMessage w (Message chatId formatHelp None)
    | inl InvalidCountry =>
        return_sendMessage w
          (Message chatId "Allowed countries: usa, uk, australia, canada" None)
    | inl InvalidEngine =>
        return_sendMessage w
          (Message chatId ("Allowed engines: " +:+ join ", " allowedEngines) None)
    | inr (Command keyword city country engine) =>
        let gl := countryMap_get country in
        let q := searchQuery (JStr keyword) (JStr city) (JStr country) in
        let* k := lift (escapeMarkdown (JStr keyword)) in
        let* c := lift (escapeMarkdown (JStr city)) in
        let* u := lift (escapeMarkdown (JStr (toUpperCase country))) in
        sendMessage
          (Message chatId
             ("Searching for *" +:+ k +:+ "* in *" +:+ c +:+ ", " +:+ u
              +:+ "* using *" +:+ engine +:+ "*") markdown);;
        let* returned :=
          try_catch
            (let* data := axios_get_serp w (serpRequest q gl engine) in
             let rawBusinesses := resultsOf engine data in
             if length rawBusinesses =? 0 then
               sendMessage (Message chatId "No businesses found." None);;
               ret (Some (Message chatId "No businesses found." None))
             else
               deliver (await_sendMessage w) w chatId (slice_0_10 rawBusinesses);;
               ret None)
            (λ _,
               sendMessage (Message chatId "Something went wrong. Try again later." None);;
               ret None) in
        match returned with
        | Some m => settle w m
        | None => ret tt
        end
    end.

End Polling.

(** ** Vocabulary of the properties *)

(** The first truthy field of a chain, else the default. *)
Fixpoint first_present (b : rawRecord) (chain : list string) (dflt : jsval) : jsval :=
  match chain with
  | [] => dflt
  | k :: chain' => if truthy (get b k) then get b k else first_present b chain' dflt
  end.

(** The reserved characters of the markdown rendering, as the specification
    lists them. *)
Definition reservedCharacters : list ascii :=
  [ "_"; "*"; "["; "]"; "("; ")"; "~"; "`"; ">"; "#"; "+"; "-"; "="; "|";
    "{"; "}"; "."; "!" ]%char.

Definition backslash : ascii := "\"%char.

(** Escaping as the specification words it: every reserved character is
    prefixed with one backslash, every other character is kept. *)
Fixpoint escape_reserved (s : string) : string :=
  match s with
  | String c s' =>
      if bool_decide (c ∈ reservedCharacters)
      then String backslash (String c (escape_reserved s'))
      else String c (escape_reserved s')
  | EmptyString => EmptyString
  end.

(** [local-part@domain.tld] *)
Definition email_shape (e : string) : Prop :=
  ∃ loc dom tld,
    e = loc +:+ "@" +:+ dom +:+ "." +:+ tld
    ∧ 1 ≤ String.length loc ∧ string_forall localClass loc = true
    ∧ 1 ≤ String.length dom ∧ string_forall domainClass dom = true
    ∧ 2 ≤ String.length tld ∧ string_forall tldClass tld = true.

Definition substring_of (e doc : string) : Prop :=
  ∃ before after, doc = before +:+ e +:+ after.

(** The characters of a text. *)
Fixpoint chars (s : string) : list ascii :=
  match s with
  | String c s' => c :: chars s'
  | EmptyString => []
  end.

(** The alphabets the specification names for the parts of an address. *)
Definition letters : string := "abcdefghijklmnopqrstuvwxyzABCDEFGHIJKLMNOPQRSTUVWXYZ".

Definition digits : string := "0123456789".

Definition localAlphabet : list ascii := chars (letters +:+ digits +:+ "._%+-").

Definition domainAlphabet : list ascii := chars (letters +:+ digits +:+ ".-").

Definition tldAlphabet : list ascii := chars letters.

(** The matches of a global search for addresses, as the specification's
    "scan the full document" reads for a regular expression: the leftmost
    text of the shape of an address, taken as long as the shape allows, then
    the matches of the text after it.  No text of that shape starts before
    the match (in [gap]), and none is left in a document without match. *)
Inductive scan : string → list string → Prop :=
  | scan_end (doc : string) :
      (∀ e, substring_of e doc → ¬ email_shape e) →
      scan doc []
  | scan_next (gap m rest : string) (ms : list string) :
      (∀ pre e after,
         gap +:+ m +:+ rest = pre +:+ e +:+ after →
         String.length pre < String.length gap → ¬ email_shape e) →
      email_shape m →
      (∀ e after,
         m +:+ rest = e +:+ after → email_shape e → String.length e ≤ String.length m) →
      scan rest ms →
      scan (gap +:+ m +:+ rest) (m :: ms).

(** The search API requests among the requests of a log. *)
Definition serp_requests (tr : list event) : list serpParams :=
  omap (λ e, match e with SerpRequest p => Some p | _ => None end) tr.

(** Message counts of a computation: at most [ok] chat messages when it
    returns, fewer than [err] when it throws (with [err = 0] it cannot
    throw). *)
Definition sends_at_most {A} (ok err : nat) (m : M A) : Prop :=
  ∀ st, match result (m st) with
        | inr _ => length (sent (log (m st))) ≤ ok
        | inl _ => length (sent (log (m st))) < err
        end.

(** A chat message is the rendering of a listing. *)
Definition renders (chatId : Z) (b : rawRecord) (m : message) : Prop :=
  ∃ emails st,
    result (renderRecord b emails st) = inr (text m)
    ∧ chat_id m = chatId ∧ parse_mode m = markdown.


(** The first request of a computation. *)
Definition starts_with {A} (e : event) (m : M A) : Prop :=
  ∀ st, ∃ rest, log (m st) = e :: rest.

(** The search API request of a parsed chat command. *)
Definition searchOf (cmd : command) : serpParams :=
  serpRequest
    (searchQuery (JStr (c_keyword cmd)) (JStr (c_city cmd)) (JStr (c_country cmd)))
    (countryMap_get (c_country cmd)) (c_engine cmd).

(** The reply of the chat handlers to an engine outside the allow-list. *)
Definition allowedEnginesReply (chatId : Z) : message :=
  Message chatId ("Allowed engines: " +:+ join ", " allowedEngines) None.

(** An export argument without rows: missing, not a list, or the empty list. *)
Definition no_rows (a : arrayArg) : bool :=
  match a with
  | Array (_ :: _) => false
  | _ => true
  end.

(** ** Vocabulary of the further properties *)

(** [new Set(arr)] inserts the elements one after the other, an element
    that is already present being skipped, and enumerates them in the order
    of insertion. *)
Definition set_add (acc : list string) (x : string) : list string :=
  if bool_decide (x ∈ acc) then acc else acc ++ [x].

Definition insertion_order (l : list string) : list string := fold_left set_add l [].


(** A computation that returns from every state. *)
Definition never_throws {A} (m : M A) : Prop :=
  ∀ st, ∃ a, result (m st) = inr a.

(** Every value the computation returns satisfies [P]. *)
Definition yields {A} (P : A → Prop) (m : M A) : Prop :=
  ∀ st a, result (m st) = inr a → P a.

(** A computation that leaves the "latest result" slots as they are. *)
Definition keeps_state {A} (m : M A) : Prop :=
  ∀ st, state_of (m st) = st.

(** The engines whose requests carry the region and language parameters. *)
Definition localized (engine : string) : bool :=
  String.eqb engine "google_maps" || String.eqb engine "google".

(** A well-formed search API request: an engine of the allow-list, with the
    region and the language ["en"] for the two Google engines and without
    them for the others. *)
Definition request_ok (e : event) : Prop :=
  match e with
  | SerpRequest p =>
      includes allowedEngines (p_engine p) = true
      ∧ (if localized (p_engine p)
         then is_Some (p_gl p) ∧ p_hl p = Some "en"
         else p_gl p = None ∧ p_hl p = None)
  | _ => True
  end.

Definition is_serp (e : event) : bool :=
  match e with SerpRequest _ => true | _ => false end.

Definition is_page (e : event) : bool :=
  match e with PageRequest _ => true | _ => false end.

(** Number of requests of a log selected by [sel]. *)
Definition count (sel : event → bool) (tr : list event) : nat :=
  length (filter (λ e, sel e = true) tr).

(** Request counts of a computation, as [sends_at_most] for the requests
    selected by [sel]. *)
Definition emits_at_most {A} (sel : event → bool) (ok err : nat) (m : M A) : Prop :=
  ∀ st, match result (m st) with
        | inr _ => count sel (log (m st)) ≤ ok
        | inl _ => count sel (log (m st)) < err
        end.

(** The reply of the chat handlers to a command that does not parse. *)
Definition errorReply (chatId : Z) (e : parseError) : message :=
  match e with
  | BadFormat => Message chatId formatHelp None
  | InvalidCountry =>
      Message chatId "Allowed countries: usa, uk, australia, canada" None
  | InvalidEngine => allowedEnginesReply chatId
  end.

(** The text the webhook handler answers with after a parse error. *)
Definition errorCode (e : parseError) : string :=
  match e with
  | BadFormat => "Bad format"
  | InvalidCountry => "Invalid country"
  | InvalidEngine => "Invalid engine"
  end.

(** The replies whose promise the polling listener returns. *)
Definition returnedReplies (chatId : Z) : list message :=
  [ errorReply chatId BadFormat; errorReply chatId InvalidCountry;
    errorReply chatId InvalidEngine; Message chatId "No businesses found." None ].

(** The result list the search API gives for a request ([[]] on failure, as
    [fetchBusinesses] returns it). *)
Definition upstreamResults (w : world) (p : serpParams) : list rawRecord :=
  match serp w p with
  | Some data => resultsOf (p_engine p) data
  | None => []
  end.

(** The search API request of a [POST /search] body whose country is the
    string [c]. *)
Definition searchOfBody (req : searchBody) (c : string) : serpParams :=
  serpRequest (searchQuery (b_keyword req) (b_city req) (b_country req))
              (countryMap_get (toLowerCase c)) (selectedEngine (b_engine req)).

Definition is_string (v : jsval) : bool :=
  match v with JStr _ => true | _ => false end.

(** A request body the webhook handler cannot read: a message with a truthy
    text and no chat, or with a truthy text that is not a string. *)
Definition unreadable (message : option Webhook.incoming) : bool :=
  match message with
  | None => false
  | Some msg =>
      truthy (Webhook.i_text msg)
      && (negb (bool_decide (is_Some (Webhook.i_chat msg)))
          || negb (is_string (Webhook.i_text msg)))
  end.

(** [s.trim().replace(/\s+/g, '_')] on a string. *)
Definition safeName (s : string) : string :=
  replaceAll Polling.spacesRegex (λ _, "_") (trim s).

(** The text of a string value, [''] for any other value. *)
Definition textOf (v : jsval) : string :=
  match v with JStr s => s | _ => EmptyString end.

(** The file name the polling variant derives from a search request. *)
Definition derivedFilename (keyword city country : string) : string :=
  safeName keyword
  +:+ (if negb (String.eqb (safeName city) EmptyString) then "_" +:+ safeName city
       else EmptyString)
  +:+ "_" +:+ safeName country +:+ ".xlsx".

(** The values [keyword.trim()] and [city.trim()] are defined for: a string
    keyword and a city that is falsy or a string. *)
Definition trimmable (req : searchBody) : bool :=
  is_string (b_keyword req) && (negb (truthy (b_city req)) || is_string (b_city req)).

Definition not_space (c : ascii) : bool := negb (is_space c).

(** The longest prefix of [s] made of characters of the class [p]. *)
Fixpoint run (p : ascii → bool) (s : string) : string :=
  match s with
  | String c s' => if p c then String c (run p s') else EmptyString
  | EmptyString => EmptyString
  end.

(** What is left of [s] after that prefix. *)
Fixpoint after_run (p : ascii → bool) (s : string) : string :=
  match s with
  | String c s' => if p c then after_run p s' else s
  | EmptyString => EmptyString
  end.

(** Every maximal run of white space replaced by one underscore; [in_run]
    tells that the previous character was white space. *)
Fixpoint collapse_from (in_run : bool) (s : string) : string :=
  match s with
  | String c s' =>
      if is_space c
      then if in_run then collapse_from true s'
           else String "_" (collapse_from true s')
      else String c (collapse_from false s')
  | EmptyString => EmptyString
  end.

(** Number of reserved characters of a text. *)
Fixpoint reserved_count (s : string) : nat :=
  match s with
  | String c s' => (if markdownClass c then 1 else 0) + reserved_count s'
  | EmptyString => 0
  end.

(** A listing whose name, address, phone and website, as the chat message
    shows them, are strings. *)
Definition renderable (b : rawRecord) : bool :=
  is_string (get b "title" ||| get b "name" ||| JStr "No Name")
  && is_string (get b "address" ||| get b "street_address" ||| JStr "N/A")
  && is_string (get b "phone" ||| JStr "N/A")
  && is_string (get b "website" ||| get b "url" ||| JStr "N/A").

(** * Properties *)

Ltac forall_list :=
  repeat match goal with
         | |- Forall _ (_ :: _) => constructor
         | |- Forall _ [] => constructor
         end.

Ltac forall_hyps :=
  repeat match goal with
         | H : Forall _ (_ :: _) |- _ => apply Forall_cons in H as [? H]
         end.

(** ** Strings *)

Lemma sapp_cons (x : ascii) (a b : string) : String x a +:+ b = String x (a +:+ b).
Proof. reflexivity. Qed.

Lemma sapp_nil_l (a : string) : "" +:+ a = a.
Proof. reflexivity. Qed.

Lemma sapp_assoc (a b c : string) : (a +:+ b) +:+ c = a +:+ (b +:+ c).
Proof.
  induction a as [|x a IH]; [reflexivity|].
  rewrite !sapp_cons, IH. reflexivity.
Qed.

Lemma sapp_nil_r (a : string) : a +:+ "" = a.
Proof.
  induction a as [|x a IH]; [reflexivity|].
  rewrite sapp_cons, IH. reflexivity.
Qed.

Lemma length_sapp (a b : string) :
  String.length (a +:+ b) = String.length a + String.length b.
Proof.
  induction a as [|x a IH]; [reflexivity|].
  rewrite sapp_cons. cbn [String.length]. rewrite IH. reflexivity.
Qed.

(** Two ways of cutting the same text: the shorter first part is a prefix of
    the longer one. *)
Lemma sapp_split (a b c d : string) :
  a +:+ b = c +:+ d → String.length a ≤ String.length c →
  ∃ x, c = a +:+ x ∧ b = x +:+ d.
Proof.
  revert c. induction a as [|x a IH]; intros c H Hlen.
  - exists c. split; [reflexivity | exact H].
  - destruct c as [|y c]; [simpl in Hlen; lia|].
    rewrite !sapp_cons in H. injection H as <- H.
    destruct (IH c H) as (z & -> & ->); [simpl in Hlen; lia|].
    exists z. split; reflexivity.
Qed.

Lemma sapp_inv_length (a b c d : string) :
  a +:+ b = c +:+ d → String.length a = String.length c → a = c ∧ b = d.
Proof.
  intros H Hlen. destruct (sapp_split a b c d H) as (x & -> & ->); [lia|].
  rewrite length_sapp in Hlen. destruct x; [|simpl in Hlen; lia].
  rewrite sapp_nil_r. split; reflexivity.
Qed.

Lemma string_forall_sapp (p : ascii → bool) (a b : string) :
  string_forall p (a +:+ b) = string_forall p a && string_forall p b.
Proof.
  induction a as [|x a IH]; [reflexivity|].
  rewrite sapp_cons. simpl. rewrite IH, andb_assoc. reflexivity.
Qed.


Lemma join_cons_cons (sep a b : string) (l : list string) :
  join sep (a :: b :: l) = a +:+ sep +:+ join sep (b :: l).
Proof. reflexivity. Qed.









(** ** Normalisation *)

Lemma js_or_truthy (a b : jsval) : truthy a = true → a ||| b = a.
Proof. unfold js_or. intros ->. reflexivity. Qed.

Lemma js_or_falsy (a b : jsval) : truthy a = false → a ||| b = b.
Proof. unfold js_or. intros ->. reflexivity. Qed.

Lemma first_present_one (b : rawRecord) (k : string) (d : jsval) :
  get b k ||| d = first_present b [k] d.
Proof. reflexivity. Qed.

Lemma first_present_two (b : rawRecord) (k1 k2 : string) (d : jsval) :
  get b k1 ||| get b k2 ||| d = first_present b [k1; k2] d.
Proof.
  simpl. destruct (truthy (get b k1)) eqn:H1.
  - rewrite (js_or_truthy (get b k1)) by exact H1. apply js_or_truthy, H1.
  - rewrite (js_or_falsy (get b k1)) by exact H1. reflexivity.
Qed.

Lemma first_present_choice (b : rawRecord) (chain : list string) (d : jsval) :
  chain_choice b chain d (first_present b chain d).
Proof.
  induction chain as [|k chain IH]; simpl.
  - right. split; [constructor | reflexivity].
  - destruct (truthy (get b k)) eqn:Hk.
    + left. exists [], k, chain. repeat split; [constructor | exact Hk].
    + destruct IH as [(pre & k' & post & -> & Hpre & Hk' & Hv) | [Hall Hv]].
      * left. exists (k :: pre), k', post.
        repeat split; [constructor; assumption | exact Hk' | exact Hv].
      * right. split; [constructor; assumption | exact Hv].
Qed.

Lemma first_present_truthy (b : rawRecord) (chain : list string) (d : jsval) :
  truthy d = true → truthy (first_present b chain d) = true.
Proof.
  intros Hd. induction chain as [|k chain IH]; simpl; [exact Hd|].
  destruct (truthy (get b k)) eqn:Hk; [exact Hk | exact IH].
Qed.

Lemma normalize_lookup (b : rawRecord) :
  Forall (λ '(field, chain, dflt),
            normalize b !! field = Some (first_present b chain dflt))
         fallback_table.
Proof.
  unfold fallback_table, normalize.
  forall_list;
    repeat (rewrite lookup_insert_ne by discriminate);
    rewrite lookup_insert_eq;
    first [ rewrite first_present_two | rewrite first_present_one ];
    reflexivity.
Qed.

(** C1: each canonical field is the first truthy field of its declared
    fallback chain, whatever the later fields of the chain hold, and the
    declared default when every field of the chain is falsy or missing. *)
Theorem normalize_fallback_chains (b : rawRecord) :
  Forall (λ '(field, chain, dflt),
            ∃ v, normalize b !! field = Some v ∧ chain_choice b chain dflt v)
         fallback_table.
Proof.
  eapply Forall_impl; [apply normalize_lookup|].
  intros [[field chain] dflt] Hlook.
  exists (first_present b chain dflt). split; [exact Hlook|].
  apply first_present_choice.
Qed.

Lemma truthy_defined (v : jsval) : truthy v = true → v ≠ JUndefined ∧ v ≠ JNull.
Proof. destruct v; simpl; intros H; split; congruence. Qed.

(** C4: normalisation is defined on every listing object; the record it
    builds has exactly the six canonical fields, each holding a truthy value
    (so neither [undefined] nor [null]); and a listing without any field is
    mapped to the default sentinels. *)
Theorem normalize_total_no_null (b : rawRecord) :
  dom (normalize b) = list_to_set canonical_fields
  ∧ Forall (λ field, ∃ v, normalize b !! field = Some v
                          ∧ truthy v = true ∧ v ≠ JUndefined ∧ v ≠ JNull)
           canonical_fields
  ∧ normalize ∅ =
      list_to_map [ ("name", JStr "No Name"); ("address", JStr "N/A");
                    ("phone", JStr "N/A"); ("website", JStr "N/A");
                    ("rating", JStr "N/A"); ("reviews", JStr "N/A") ].
Proof.
  split; [|split].
  - unfold normalize, canonical_fields. rewrite !dom_insert_L, dom_empty_L.
    simpl. set_solver.
  - pose proof (normalize_lookup b) as H. unfold fallback_table in H.
    unfold canonical_fields.
    forall_hyps.
    forall_list;
      (eexists; split; [eassumption|]);
      match goal with
      | |- truthy ?v = true ∧ _ =>
          assert (truthy v = true) as Ht by (apply first_present_truthy; reflexivity);
          split; [exact Ht | apply truthy_defined, Ht]
      end.
  - reflexivity.
Qed.

(** ** Chat command parsing *)


Lemma parseCommand_inr (vc : string → bool) (text : string) (cmd : command) :
  parseCommand vc text = inr cmd →
  2 ≤ length (commandParts text)
  ∧ cmd = assignFields (commandParts text)
  ∧ vc (c_country cmd) = true
  ∧ includes allowedEngines (c_engine cmd) = true.
Proof.
  unfold parseCommand.
  destruct (Nat.ltb_spec (length (commandParts text)) 2) as [|Hge]; [discriminate|].
  destruct (vc _) eqn:Hvc; cbn [negb]; [|discriminate].
  destruct (includes allowedEngines _) eqn:Hinc; cbn [negb]; [|discriminate].
  intros [= <-]. auto.
Qed.




(** C9: with five or more segments the first three are keyword, city and
    country, the others are ignored and the engine is [google_maps]; the
    parse then only depends on the country check.  The engine segment is
    read only when there are exactly four segments. *)
Theorem parse_command_extra_segments (vc : string → bool) (text : string) :
  5 ≤ length (commandParts text) →
  let parts := commandParts text in
  let cmd := Command (part parts 0) (part parts 1) (toLowerCase (part parts 2))
                     "google_maps" in
  assignFields parts = cmd
  ∧ parseCommand vc text =
      (if vc (toLowerCase (part parts 2)) then inr cmd else inl InvalidCountry)
  ∧ (∀ segments, length segments ≠ 4 → c_engine (assignFields segments) = "google_maps")
  ∧ (∀ segments, length segments = 4 →
       c_engine (assignFields segments) = toLowerCase (part segments 3)).
Proof.
  intros Hlen parts cmd.
  assert (assignFields parts = cmd) as Hassign.
  { subst cmd parts.
    destruct (commandParts text) as [|a [|b [|c [|d [|e rest]]]]];
      simpl in Hlen; try lia. reflexivity. }
  split; [exact Hassign|]. split; [|split].
  - unfold parseCommand. fold parts. rewrite Hassign.
    destruct (Nat.ltb_spec (length parts) 2) as [|_]; [subst parts; lia|].
    simpl. destruct (vc _); reflexivity.
  - intros segments Hne. unfold assignFields. cbn [c_engine].
    destruct (Nat.eqb_spec (length segments) 4); [contradiction | reflexivity].
  - intros segments Heq. unfold assignFields. cbn [c_engine].
    rewrite Heq. reflexivity.
Qed.

Lemma parse_command_extra_segments_witness :
  5 ≤ length (commandParts "/seo,new york,usa,yahoo,extra")
  ∧ parseCommand Webhook.validCountry "/seo,new york,usa,yahoo,extra"
    = inr (Command "seo" "new york" "usa" "google_maps").
Proof.
  split; [vm_compute; lia|].
  apply (parse_command_extra_segments Webhook.validCountry
           "/seo,new york,usa,yahoo,extra").
  vm_compute; lia.
Defined.

(** ** Markdown escaping *)

Lemma markdownClass_reserved (c : ascii) :
  markdownClass c = bool_decide (c ∈ reservedCharacters).
Proof. destruct c as [[] [] [] [] [] [] [] []]; vm_compute; reflexivity. Qed.

Lemma backslash_not_reserved : backslash ∉ reservedCharacters.
Proof.
  intros H. apply (bool_decide_eq_true_2 _) in H. vm_compute in H. discriminate.
Qed.

Lemma match_here_once (p : ascii → bool) (c : ascii) (s : string) :
  match_here [once p] (String c s) = if p c then Some (String c "", s) else None.
Proof.
  simpl. destruct (p c); simpl; [|reflexivity].
  destruct s as [|a s]; simpl; [reflexivity|].
  rewrite andb_false_r. reflexivity.
Qed.

Lemma replace_from_once (p : ascii → bool) (f : string → string) (c : ascii) (s : string) :
  replace_from [once p] f 0 (String c s) =
    if p c then f (String c "") +:+ replace_from [once p] f 0 s
    else String c (replace_from [once p] f 0 s).
Proof.
  cbn [replace_from]. rewrite match_here_once. destruct (p c); reflexivity.
Qed.

Lemma replaceAll_markdown (s : string) :
  replaceAll markdownRegex (λ m, "\" +:+ m) s = escape_reserved s.
Proof.
  unfold replaceAll, markdownRegex. induction s as [|c s IH]; [reflexivity|].
  rewrite replace_from_once, IH, markdownClass_reserved. simpl.
  destruct (bool_decide _); reflexivity.
Qed.

Lemma escape_reserved_preceded (s : string) (i : nat) (c : ascii) :
  String.get i (escape_reserved s) = Some c →
  c ∈ reservedCharacters →
  ∃ j, i = S j ∧ String.get j (escape_reserved s) = Some backslash.
Proof.
  revert i. induction s as [|c0 s IH]; intros i Hget Hc; [discriminate|].
  simpl in Hget |- *. case_bool_decide as Hc0.
  - destruct i as [|[|i]]; simpl in Hget.
    + injection Hget as <-. destruct (backslash_not_reserved Hc).
    + exists 0. split; reflexivity.
    + destruct (IH i Hget Hc) as (j & -> & Hj). exists (S (S j)). split; [reflexivity | exact Hj].
  - destruct i as [|i]; simpl in Hget.
    + injection Hget as <-. contradiction.
    + destruct (IH i Hget Hc) as (j & -> & Hj). exists (S j). split; [reflexivity | exact Hj].
Qed.

(** C5: on a string, [escapeMarkdown] puts one backslash before every
    character of the reserved set and keeps every other character; the class
    of the pattern is the reserved set; in the output every reserved
    character directly follows a backslash; and ["A+B (test)"] becomes
    ["A\+B \(test\)"]. *)
Theorem escapeMarkdown_reserved :
  (∀ c, markdownClass c = true ↔ c ∈ reservedCharacters)
  ∧ (∀ s, escapeMarkdown (JStr s) = inr (escape_reserved s))
  ∧ (∀ s i c,
       String.get i (escape_reserved s) = Some c →
       c ∈ reservedCharacters →
       ∃ j, i = S j ∧ String.get j (escape_reserved s) = Some backslash)
  ∧ escapeMarkdown (JStr "A+B (test)") = inr "A\+B \(test\)".
Proof.
  split; [|split; [|split]].
  - intros c. rewrite markdownClass_reserved. apply bool_decide_eq_true.
  - intros [|c s]; [reflexivity|].
    unfold escapeMarkdown. cbn [truthy String.eqb negb].
    rewrite replaceAll_markdown. reflexivity.
  - apply escape_reserved_preceded.
  - reflexivity.
Qed.

Lemma escapeMarkdown_reserved_witness :
  String.get 1 (escape_reserved "+") = Some "+"%char
  ∧ "+"%char ∈ reservedCharacters
  ∧ ∃ j, 1 = S j ∧ String.get j (escape_reserved "+") = Some backslash.
Proof.
  assert ("+"%char ∈ reservedCharacters) as Hin.
  { unfold reservedCharacters. do 10 apply list_elem_of_further. apply list_elem_of_here. }
  split; [reflexivity|]. split; [exact Hin|].
  apply (proj1 (proj2 (proj2 escapeMarkdown_reserved)) "+" 1 "+"%char eq_refl Hin).
Defined.

(** ** The matcher *)

(** A successful greedy repetition splits the input into a run of the class,
    within the bounds of the quantifier, and what the continuation matched. *)
Lemma repeat_match_sound (p : ascii → bool) (k : continuation) (s : string) :
  ∀ min max m rest,
    repeat_match p min max k s = Some (m, rest) →
    ∃ m1 m2 s2,
      m = m1 +:+ m2 ∧ s = m1 +:+ s2
      ∧ string_forall p m1 = true
      ∧ min ≤ String.length m1
      ∧ (∀ n, max = Some n → String.length m1 ≤ n)
      ∧ k s2 = Some (m2, rest).
Proof.
  assert (∀ (min : nat) (max : option nat) s0 m rest,
            match min with O => k s0 | S _ => None end = Some (m, rest) →
            ∃ m1 m2 s2,
              m = m1 +:+ m2 ∧ s0 = m1 +:+ s2
              ∧ string_forall p m1 = true
              ∧ min ≤ String.length m1
              ∧ (∀ n, max = Some n → String.length m1 ≤ n)
              ∧ k s2 = Some (m2, rest)) as Hstop.
  { intros [|min] max s0 m rest H; [|discriminate].
    exists "", m, s0. repeat split; simpl; try lia; exact H. }
  induction s as [|c s IH]; intros min max m rest H.
  - apply (Hstop min max). exact H.
  - cbn [repeat_match] in H.
    destruct (p c && may_repeat max) eqn:Hc; [|apply (Hstop min max); exact H].
    apply andb_true_iff in Hc as [Hpc Hmax].
    destruct (repeat_match p (pred min) (pred <$> max) k s) as [[m' rest']|] eqn:Hrec;
      [|apply (Hstop min max); exact H].
    injection H as <- <-.
    destruct (IH _ _ _ _ Hrec) as (m1 & m2 & s2 & -> & -> & Hall & Hmin & Hbound & Hk).
    exists (String c m1), m2, s2. repeat split; simpl.
    + rewrite Hpc, Hall. reflexivity.
    + lia.
    + intros n ->. destruct n as [|n]; [discriminate|].
      specialize (Hbound n eq_refl). lia.
    + exact Hk.
Qed.

(** Conversely, when some split is acceptable the greedy search succeeds. *)
Lemma repeat_match_complete (p : ascii → bool) (k : continuation) (m1 s2 : string) :
  ∀ min max,
    string_forall p m1 = true →
    min ≤ String.length m1 →
    (∀ n, max = Some n → String.length m1 ≤ n) →
    is_Some (k s2) →
    is_Some (repeat_match p min max k (m1 +:+ s2)).
Proof.
  induction m1 as [|c m1 IH]; intros min max Hall Hmin Hmax Hk.
  - assert (min = 0) as -> by (simpl in Hmin; lia). rewrite sapp_nil_l.
    destruct s2 as [|c s2]; simpl; [exact Hk|].
    destruct (p c && may_repeat max); [|exact Hk].
    destruct (repeat_match _ _ _ _ _) as [[m rest]|]; [eexists; reflexivity | exact Hk].
  - simpl in Hall. apply andb_true_iff in Hall as [Hc Hall].
    rewrite sapp_cons. cbn [repeat_match]. rewrite Hc.
    assert (may_repeat max = true) as ->.
    { destruct max as [[|n]|]; try reflexivity.
      specialize (Hmax 0 eq_refl). simpl in Hmax. lia. }
    cbn [andb].
    destruct (IH (pred min) (pred <$> max) Hall) as [[m rest] ->].
    + simpl in Hmin. lia.
    + intros n Hn. destruct max as [mx|]; [|discriminate].
      injection Hn as <-. specialize (Hmax mx eq_refl). simpl in Hmax. lia.
    + exact Hk.
    + eexists; reflexivity.
Qed.

Lemma one_char (x : ascii) (m : string) :
  string_forall (one_of (String x "")) m = true →
  1 ≤ String.length m → String.length m ≤ 1 → m = String x "".
Proof.
  destruct m as [|c [|c' m]]; simpl; intros Hall Hlo Hhi; try lia.
  rewrite !orb_false_r, andb_true_r in Hall.
  apply Ascii.eqb_eq in Hall as ->. reflexivity.
Qed.

(** A match of the email pattern has the shape [local-part@domain.tld] and
    is a prefix of the text it was found in. *)
Lemma match_here_email (s m rest : string) :
  match_here emailRegex s = Some (m, rest) → email_shape m ∧ s = m +:+ rest.
Proof.
  unfold emailRegex. cbn [match_here cls rmin rmax plus once at_least].
  intros H.
  apply repeat_match_sound in H as (loc & m2 & s2 & -> & -> & Hloc & Hloc1 & _ & H).
  apply repeat_match_sound in H as (a & m3 & s3 & -> & -> & Ha & Ha1 & Ha2 & H).
  apply repeat_match_sound in H as (dom & m4 & s4 & -> & -> & Hdom & Hdom1 & _ & H).
  apply repeat_match_sound in H as (d & m5 & s5 & -> & -> & Hd & Hd1 & Hd2 & H).
  apply repeat_match_sound in H as (tld & m6 & s6 & -> & -> & Htld & Htld2 & _ & H).
  injection H as <- <-.
  apply one_char in Ha as ->; [|exact Ha1 | apply Ha2; reflexivity].
  apply one_char in Hd as ->; [|exact Hd1 | apply Hd2; reflexivity].
  rewrite sapp_nil_r. split.
  - exists loc, dom, tld. repeat split; assumption.
  - rewrite !sapp_assoc. reflexivity.
Qed.

Lemma match_here_email_complete (e after : string) :
  email_shape e → is_Some (match_here emailRegex (e +:+ after)).
Proof.
  intros (loc & dom & tld & -> & Hloc1 & Hloc & Hdom1 & Hdom & Htld2 & Htld).
  unfold emailRegex. cbn [match_here cls rmin rmax plus once at_least].
  rewrite !sapp_assoc.
  apply repeat_match_complete; [exact Hloc | exact Hloc1 | discriminate |].
  apply (repeat_match_complete _ _ "@");
    [reflexivity | simpl; lia | intros n [= <-]; simpl; lia |].
  apply repeat_match_complete; [exact Hdom | exact Hdom1 | discriminate |].
  apply (repeat_match_complete _ _ ".");
    [reflexivity | simpl; lia | intros n [= <-]; simpl; lia |].
  apply repeat_match_complete; [exact Htld | exact Htld2 | discriminate |].
  eexists; reflexivity.
Qed.

Lemma match_from_sound (r : regex) (s : string) :
  ∀ skip e,
    e ∈ match_from r skip s →
    ∃ before suffix rest, s = before +:+ suffix ∧ match_here r suffix = Some (e, rest).
Proof.
  induction s as [|c s IH]; intros skip e He.
  - cbn [match_from] in He. destruct skip; [|inversion He].
    destruct (match_here r "") as [[m rest]|] eqn:Hm; [|inversion He].
    apply list_elem_of_singleton in He as ->. exists "", "", rest. split; [reflexivity | exact Hm].
  - cbn [match_from] in He.
    assert (∀ n, e ∈ match_from r n s →
                 ∃ before suffix rest,
                   String c s = before +:+ suffix ∧ match_here r suffix = Some (e, rest)) as Hrec.
    { intros n Hn. destruct (IH n e Hn) as (before & suffix & rest & -> & Hm).
      exists (String c before), suffix, rest. split; [reflexivity | exact Hm]. }
    destruct skip as [|n]; [|apply (Hrec n), He].
    destruct (match_here r (String c s)) as [[m rest]|] eqn:Hm; [|apply (Hrec 0), He].
    apply elem_of_cons in He as [->|He]; [|eapply Hrec, He].
    exists "", (String c s), rest. split; [reflexivity | exact Hm].
Qed.

Lemma match_from_complete (r : regex) (suffix : string) :
  is_Some (match_here r suffix) →
  ∀ before skip, skip ≤ String.length before →
    match_from r skip (before +:+ suffix) ≠ [].
Proof.
  intros [[m rest] Hm] before. induction before as [|c before IH]; intros skip Hskip.
  - assert (skip = 0) as -> by (simpl in Hskip; lia). rewrite sapp_nil_l.
    destruct suffix as [|c suffix]; cbn [match_from]; rewrite Hm; discriminate.
  - simpl in Hskip. rewrite sapp_cons. cbn [match_from].
    destruct skip as [|n]; [|apply IH; lia].
    destruct (match_here r (String c (before +:+ suffix))) as [[m' rest']|];
      [discriminate | apply IH; lia].
Qed.

(** Greedy repetition: among the runs the quantifier may take, the search
    settles on the longest one after which the continuation succeeds. *)
Lemma repeat_match_greedy (p : ascii → bool) (k : continuation) (s : string) :
  ∀ min m rest,
    repeat_match p min None k s = Some (m, rest) →
    ∃ m1 m2 s2,
      m = m1 +:+ m2 ∧ s = m1 +:+ s2
      ∧ string_forall p m1 = true
      ∧ min ≤ String.length m1
      ∧ k s2 = Some (m2, rest)
      ∧ (∀ m1' s2',
           s = m1' +:+ s2' → string_forall p m1' = true →
           String.length m1 < String.length m1' → k s2' = None).
Proof.
  induction s as [|c s IH]; intros min m rest H.
  - cbn [repeat_match] in H. destruct min; [|discriminate].
    exists "", m, "". repeat split; try reflexivity; [exact H|].
    intros m1' s2' Hs _ Hlen. destruct m1'; [simpl in Hlen; lia | discriminate].
  - cbn [repeat_match may_repeat fmap option_fmap option_map] in H.
    rewrite andb_true_r in H.
    destruct (p c) eqn:Hpc.
    + destruct (repeat_match p (pred min) None k s) as [[m' rest']|] eqn:Hrec.
      * injection H as <- <-.
        destruct (IH _ _ _ Hrec) as (m1 & m2 & s2 & -> & -> & Hall & Hmin & Hk & Hmax).
        exists (String c m1), m2, s2. repeat split.
        -- simpl. rewrite Hpc, Hall. reflexivity.
        -- simpl. lia.
        -- exact Hk.
        -- intros m1' s2' Hs Hall' Hlen.
           destruct m1' as [|c' m1']; [simpl in Hlen; lia|].
           rewrite !sapp_cons in Hs. injection Hs as _ Hs.
           simpl in Hall'. apply andb_true_iff in Hall' as [_ Hall'].
           apply (Hmax m1' s2' Hs Hall'). simpl in Hlen. lia.
      * destruct min; [|discriminate].
        exists "", m, (String c s). repeat split; try reflexivity; [exact H|].
        intros m1' s2' Hs Hall' Hlen.
        destruct m1' as [|c' m1']; [simpl in Hlen; lia|].
        rewrite sapp_cons in Hs. injection Hs as _ Hs.
        simpl in Hall'. apply andb_true_iff in Hall' as [_ Hall'].
        destruct (k s2') as [r|] eqn:Hk; [|reflexivity].
        assert (is_Some (repeat_match p (pred 0) None k (m1' +:+ s2'))) as [r' Hr'].
        { apply repeat_match_complete;
            [exact Hall' | simpl; lia | discriminate | rewrite Hk; eexists; reflexivity]. }
        rewrite <- Hs, Hrec in Hr'. discriminate.
    + destruct min; [|discriminate].
      exists "", m, (String c s). repeat split; try reflexivity; [exact H|].
      intros m1' s2' Hs Hall' Hlen.
      destruct m1' as [|c' m1']; [simpl in Hlen; lia|].
      rewrite sapp_cons in Hs. injection Hs as <- _.
      simpl in Hall'. rewrite Hpc in Hall'. discriminate.
Qed.

(** A run of a class that is followed by a character outside the class is
    determined by the text. *)
Lemma run_unique (p : ascii → bool) (x x' : ascii) (a a' b b' : string) :
  a +:+ String x b = a' +:+ String x' b' →
  string_forall p a = true → string_forall p a' = true →
  p x = false → p x' = false →
  a = a' ∧ b = b'.
Proof.
  revert a'. induction a as [|c a IH]; intros [|c' a'] H Ha Ha' Hx Hx'.
  - injection H as _ H. split; [reflexivity | exact H].
  - rewrite sapp_nil_l, sapp_cons in H. injection H as -> _.
    simpl in Ha'. rewrite Hx in Ha'. discriminate.
  - rewrite sapp_nil_l, sapp_cons in H. injection H as -> _.
    simpl in Ha. rewrite Hx' in Ha. discriminate.
  - rewrite !sapp_cons in H. injection H as <- H.
    simpl in Ha, Ha'. apply andb_true_iff in Ha as [_ Ha]. apply andb_true_iff in Ha' as [_ Ha'].
    destruct (IH a' H Ha Ha' Hx Hx') as [-> ->]. split; reflexivity.
Qed.

(** What follows a domain: the dot and a top-level name of two letters or
    more. *)
Lemma match_tld_complete (tld after : string) :
  2 ≤ String.length tld → string_forall tldClass tld = true →
  is_Some (match_here [once (one_of "."); at_least 2 tldClass] ("." +:+ tld +:+ after)).
Proof.
  intros Htld2 Htld. cbn [match_here cls rmin rmax once at_least].
  apply (repeat_match_complete _ _ ".");
    [reflexivity | simpl; lia | intros n [= <-]; simpl; lia |].
  apply repeat_match_complete; [exact Htld | exact Htld2 | discriminate |].
  eexists; reflexivity.
Qed.

(** The match found at a position is the longest text of the shape of an
    address that starts there. *)
Lemma match_here_email_longest (s m rest e after : string) :
  match_here emailRegex s = Some (m, rest) →
  s = e +:+ after → email_shape e →
  String.length e ≤ String.length m.
Proof.
  unfold emailRegex. cbn [match_here cls rmin rmax plus once at_least].
  intros H Hs (loc' & dom' & tld' & -> & Hloc1' & Hloc' & Hdom1' & Hdom' & Htld2' & Htld').
  apply repeat_match_greedy in H as (loc & m2 & s2 & -> & -> & Hloc & Hloc1 & H & _).
  apply repeat_match_sound in H as (a & m3 & s3 & -> & -> & Ha & Ha1 & Ha2 & H).
  apply repeat_match_greedy in H as (dom & m4 & s4 & -> & -> & Hdom & Hdom1 & H & Hlongest).
  pose proof H as Hk.
  apply repeat_match_sound in H as (d & m5 & s5 & -> & -> & Hd & Hd1 & Hd2 & H).
  apply repeat_match_greedy in H as (tld & m6 & s6 & -> & -> & Htld & Htld2 & H & Hall).
  injection H as <- <-.
  apply one_char in Ha as ->; [|exact Ha1 | apply Ha2; reflexivity].
  apply one_char in Hd as ->; [|exact Hd1 | apply Hd2; reflexivity].
  rewrite !sapp_assoc in Hs.
  apply (run_unique localClass) in Hs as [<- Hs];
    [|exact Hloc | exact Hloc' | reflexivity | reflexivity].
  rewrite !length_sapp. cbn [String.length].
  destruct (Nat.le_gt_cases (String.length dom') (String.length dom)) as [Hle|Hgt].
  - symmetry in Hs. destruct (sapp_split _ _ _ _ Hs Hle) as (x & -> & Hx).
    rewrite length_sapp. destruct x as [|c x].
    + rewrite sapp_nil_l in Hx. injection Hx as Hx.
      destruct (Nat.le_gt_cases (String.length tld') (String.length tld)) as [Hle'|Hgt'];
        [simpl; lia|].
      symmetry in Hx. specialize (Hall tld' after Hx Htld' Hgt'). discriminate.
    + rewrite !sapp_cons in Hx. injection Hx as <- Hx.
      rewrite !sapp_nil_l in Hx.
      destruct (Nat.le_gt_cases (String.length tld') (String.length x)) as [Hle'|Hgt'];
        [simpl; lia|].
      symmetry in Hx. destruct (sapp_split _ _ _ _ Hx) as (y & -> & Hy); [lia|].
      rewrite length_sapp in Hgt'. destruct y as [|c y]; [simpl in Hgt'; lia|].
      injection Hy as <- _.
      rewrite string_forall_sapp in Htld'. apply andb_true_iff in Htld' as [_ Htld'].
      discriminate.
  - specialize (Hlongest dom' ("." +:+ tld' +:+ after) Hs Hdom' Hgt).
    destruct (match_tld_complete tld' after Htld2' Htld') as [r Hr].
    cbn [match_here cls rmin rmax once at_least] in Hr.
    rewrite Hlongest in Hr. discriminate.
Qed.

(** The character classes of the pattern are the alphabets of the
    specification. *)
Lemma class_alphabets (c : ascii) :
  localClass c = bool_decide (c ∈ localAlphabet)
  ∧ domainClass c = bool_decide (c ∈ domainAlphabet)
  ∧ tldClass c = bool_decide (c ∈ tldAlphabet).
Proof.
  destruct c as [[] [] [] [] [] [] [] []]; vm_compute; repeat split; reflexivity.
Qed.

Lemma email_shape_nonempty (e : string) : email_shape e → ∃ c e', e = String c e'.
Proof.
  intros (loc & dom & tld & -> & Hloc1 & _).
  destruct loc as [|c loc]; [simpl in Hloc1; lia|]. eexists _, _. reflexivity.
Qed.

(** After a match the search resumes behind it. *)
Lemma match_from_skip (r : regex) (a rest : string) :
  match_from r (String.length a) (a +:+ rest) = match_from r 0 rest.
Proof.
  induction a as [|x a IH]; [reflexivity|].
  rewrite sapp_cons. cbn [String.length match_from]. exact IH.
Qed.

Lemma no_match_no_prefix (s e after : string) :
  match_here emailRegex s = None → s = e +:+ after → ¬ email_shape e.
Proof.
  intros Hnone -> Hshape.
  destruct (match_here_email_complete e after Hshape) as [r Hr]. congruence.
Qed.

Lemma scan_empty : scan "" [].
Proof.
  apply scan_end. intros e (before & after & H).
  destruct before; [|discriminate]. rewrite sapp_nil_l in H.
  apply (no_match_no_prefix "" e after); [reflexivity | exact H].
Qed.

(** A position where the pattern does not match extends the gap before the
    next match. *)
Lemma scan_cons_gap (c : ascii) (s : string) (ms : list string) :
  match_here emailRegex (String c s) = None → scan s ms → scan (String c s) ms.
Proof.
  intros Hnone Hscan. inversion Hscan as [doc Hno|gap m rest ms' Hgap Hm Hlong Hrest]; subst.
  - apply scan_end. intros e (before & after & H).
    destruct before as [|c' before].
    + rewrite sapp_nil_l in H. apply (no_match_no_prefix _ e after Hnone H).
    + rewrite sapp_cons in H. injection H as _ H. apply Hno. exists before, after. exact H.
  - change (String c (gap +:+ m +:+ rest)) with (String c gap +:+ m +:+ rest).
    apply scan_next; [|exact Hm | exact Hlong | exact Hrest].
    intros pre e after H Hlen. destruct pre as [|c' pre].
    + rewrite sapp_nil_l in H. apply (no_match_no_prefix _ e after Hnone H).
    + rewrite !sapp_cons in H. injection H as _ H.
      apply (Hgap pre e after H). simpl in Hlen. lia.
Qed.

(** The matcher computes the scan. *)
Lemma scan_match_from (n : nat) :
  ∀ doc, String.length doc ≤ n → scan doc (match_from emailRegex 0 doc).
Proof.
  induction n as [|n IH]; intros doc Hlen.
  - destruct doc; [apply scan_empty | simpl in Hlen; lia].
  - destruct doc as [|c s]; [apply scan_empty|].
    cbn [match_from].
    destruct (match_here emailRegex (String c s)) as [[m rest]|] eqn:Hm.
    + pose proof (λ e after, match_here_email_longest _ _ _ e after Hm) as Hlong.
      apply match_here_email in Hm as [Hshape Hs].
      destruct (email_shape_nonempty m Hshape) as (c' & m' & ->).
      rewrite sapp_cons in Hs. injection Hs as <- ->.
      cbn [String.length pred]. rewrite match_from_skip.
      change (String c (m' +:+ rest)) with ("" +:+ String c m' +:+ rest).
      apply scan_next.
      * intros pre e after _ Hpre. simpl in Hpre. lia.
      * exact Hshape.
      * intros e after He. exact (Hlong e after He).
      * apply IH. simpl in Hlen. rewrite length_sapp in Hlen. lia.
    + apply scan_cons_gap; [exact Hm|]. apply IH. simpl in Hlen. lia.
Qed.

Lemma scan_matchAll (doc : string) : scan doc (matchAll emailRegex doc).
Proof. apply (scan_match_from (String.length doc)). lia. Qed.

(** A document has one scan. *)
Lemma scan_unique (doc : string) (ms : list string) :
  scan doc ms → ∀ ms', scan doc ms' → ms' = ms.
Proof.
  induction 1 as [doc Hno|gap m rest ms Hgap Hm Hlong Hrest IH]; intros ms' H'.
  - inversion H' as [doc' Hno'|gap' m' rest' ms'' Hgap' Hm' Hlong' Hrest']; subst;
      [reflexivity|].
    exfalso. apply (Hno m'); [exists gap', rest'; reflexivity | exact Hm'].
  - inversion H' as [doc' Hno'|gap' m' rest' ms'' Hgap' Hm' Hlong' Hrest' Hdoc]; subst.
    + exfalso. apply (Hno' m); [exists gap, rest; reflexivity | exact Hm].
    + destruct (Nat.lt_trichotomy (String.length gap') (String.length gap)) as [Hlt|[Heq|Hgt]].
      * exfalso. apply (Hgap gap' m' rest'); [symmetry; exact Hdoc | exact Hlt | exact Hm'].
      * apply sapp_inv_length in Hdoc as [-> Hdoc]; [|exact Heq].
        pose proof (Hlong m' rest' (eq_sym Hdoc) Hm') as H1.
        pose proof (Hlong' m rest Hdoc Hm) as H2.
        apply sapp_inv_length in Hdoc as [-> ->]; [|lia].
        rewrite (IH ms'' Hrest'). reflexivity.
      * exfalso. rewrite Hdoc in Hgap'.
        apply (Hgap' gap m rest); [reflexivity | exact Hgt | exact Hm].
Qed.

(** Nothing is missed: a text of the shape of an address anywhere in the
    document starts inside one of the matches of the scan. *)
Lemma scan_covers (doc : string) (ms : list string) :
  scan doc ms →
  ∀ pre e after,
    doc = pre +:+ e +:+ after → email_shape e →
    ∃ before m after',
      m ∈ ms ∧ doc = before +:+ m +:+ after'
      ∧ String.length before ≤ String.length pre
      ∧ String.length pre < String.length before + String.length m.
Proof.
  induction 1 as [doc Hno|gap m rest ms Hgap Hm Hlong Hrest IH]; intros pre e after Hdoc He.
  - exfalso. apply (Hno e); [exists pre, after; exact Hdoc | exact He].
  - destruct (Nat.le_gt_cases (String.length gap) (String.length pre)) as [Hle|Hgt];
      [|exfalso; apply (Hgap pre e after Hdoc Hgt He)].
    destruct (Nat.le_gt_cases (String.length gap + String.length m) (String.length pre))
      as [Hle'|Hgt'].
    + destruct (sapp_split _ _ _ _ Hdoc Hle) as (x & -> & Hx).
      rewrite length_sapp in Hle'.
      destruct (sapp_split _ _ _ _ Hx) as (y & -> & Hy); [lia|].
      destruct (IH y e after Hy He) as (before & m' & after' & Hin & -> & Hb1 & Hb2).
      exists (gap +:+ m +:+ before), m', after'.
      split; [apply elem_of_cons; right; exact Hin|].
      split; [rewrite !sapp_assoc; reflexivity|].
      rewrite !length_sapp. lia.
    + exists gap, m, rest. split; [apply elem_of_cons; left; reflexivity|].
      split; [reflexivity|]. lia.
Qed.

Lemma elem_of_setOf (l : list string) (x : string) : x ∈ setOf l ↔ x ∈ l.
Proof.
  induction l as [|y l IH]; simpl; [reflexivity|].
  rewrite !elem_of_cons, list_elem_of_filter, IH.
  destruct (decide (x = y)); tauto.
Qed.

Lemma NoDup_setOf (l : list string) : NoDup (setOf l).
Proof.
  induction l as [|y l IH]; simpl; [constructor|].
  apply NoDup_cons. split.
  - rewrite list_elem_of_filter. tauto.
  - apply NoDup_filter, IH.
Qed.

(** ** Email extraction *)

Lemma scrape_result (w : world) (url : jsval) (st : appState) :
  result (scrapeEmailsFromWebsite w url st) =
    match page w url with
    | Some (JStr doc) => inr (setOf (matchAll emailRegex doc))
    | _ => inr []
    end.
Proof.
  unfold scrapeEmailsFromWebsite, axios_get_page, try_catch, bind, emit. simpl.
  destruct (page w url) as [[]|]; reflexivity.
Qed.

(** C6: on a document, extraction returns a duplicate-free list; each
    element has the shape [local-part@domain.tld] and occurs in the
    document; when the document contains a text of that shape the list is
    not empty.  Every match is returned: the members of the list are exactly
    the matches of the scan of the document, which are determined by the
    document (the leftmost text of the shape, as long as the shape allows,
    then the matches of the text behind it), and a text of the shape
    anywhere in the document starts inside an occurrence of a returned
    address.  The sample text yields the one address; the scraper returns
    the extraction of the fetched document; and a failed fetch gives the
    empty list, the scraper never throwing.  The classes of the shape are
    the alphabets the specification names: letters, digits and [._%+-] for
    the local part, letters, digits, [.] and [-] for the domain, letters of
    either case for the top-level name. *)
Theorem extractEmails_spec :
  (∀ doc, ∃ l,
      extractEmails (JStr doc) = inr l
      ∧ NoDup l
      ∧ (∀ e, e ∈ l → email_shape e ∧ substring_of e doc)
      ∧ ((∃ e, email_shape e ∧ substring_of e doc) → l ≠ [])
      ∧ (∃ matches,
           scan doc matches
           ∧ (∀ ms, scan doc ms → ms = matches)
           ∧ (∀ e, e ∈ l ↔ e ∈ matches))
      ∧ (∀ pre e after,
           doc = pre +:+ e +:+ after → email_shape e →
           ∃ before m after',
             m ∈ l ∧ doc = before +:+ m +:+ after'
             ∧ String.length before ≤ String.length pre
             ∧ String.length pre < String.length before + String.length m))
  ∧ extractEmails (JStr "contact me at a.b+c@example.co.uk or spam@x")
    = inr ["a.b+c@example.co.uk"]
  ∧ (∀ w url st doc,
       page w url = Some (JStr doc) →
       result (scrapeEmailsFromWebsite w url st) = extractEmails (JStr doc))
  ∧ (∀ w url st,
       page w url = None → result (scrapeEmailsFromWebsite w url st) = inr [])
  ∧ (∀ w url st, ∃ l, result (scrapeEmailsFromWebsite w url st) = inr l)
  ∧ (∀ c, (localClass c = true ↔ c ∈ localAlphabet)
          ∧ (domainClass c = true ↔ c ∈ domainAlphabet)
          ∧ (tldClass c = true ↔ c ∈ tldAlphabet)).
Proof.
  split; [|split; [|split; [|split; [|split]]]].
  - intros doc. exists (setOf (matchAll emailRegex doc)).
    split; [reflexivity|]. split; [apply NoDup_setOf|]. split; [|split; [|split]].
    + intros e He. rewrite elem_of_setOf in He. unfold matchAll in He.
      apply match_from_sound in He as (before & suffix & rest & -> & Hm).
      apply match_here_email in Hm as [Hshape ->].
      split; [exact Hshape | exists before, rest; reflexivity].
    + intros (e & Hshape & before & after & ->) Hnil.
      apply (match_from_complete emailRegex (e +:+ after)
               (match_here_email_complete e after Hshape) before 0); [lia|].
      unfold matchAll in Hnil.
      destruct (match_from emailRegex 0 (before +:+ e +:+ after)); [reflexivity|].
      discriminate.
    + exists (matchAll emailRegex doc). split; [apply scan_matchAll|].
      split; [apply scan_unique, scan_matchAll|].
      intros e. apply elem_of_setOf.
    + intros pre e after Hdoc He.
      destruct (scan_covers doc _ (scan_matchAll doc) pre e after Hdoc He)
        as (before & m & after' & Hin & Hm & Hlen).
      exists before, m, after'. split; [apply elem_of_setOf, Hin|].
      split; [exact Hm | exact Hlen].
  - reflexivity.
  - intros w url st doc H. rewrite scrape_result, H. reflexivity.
  - intros w url st H. rewrite scrape_result, H. reflexivity.
  - intros w url st. rewrite scrape_result.
    destruct (page w url) as [[]|]; eexists; reflexivity.
  - intros c. destruct (class_alphabets c) as (-> & -> & ->).
    repeat split; apply bool_decide_eq_true.
Qed.

Lemma extractEmails_spec_witness :
  page (World (λ _, None) (λ _, None) (λ _, true)) (JStr "http://example.com") = None
  ∧ result (scrapeEmailsFromWebsite (World (λ _, None) (λ _, None) (λ _, true))
              (JStr "http://example.com") initial_state) = inr [].
Proof.
  split; [reflexivity|].
  apply (proj1 (proj2 (proj2 (proj2 extractEmails_spec)))). reflexivity.
Defined.

(** ** Laws of the effect monad *)

Lemma result_bind {A B} (m : M A) (k : A → M B) (st : appState) :
  result (bind m k st) =
    match result (m st) with
    | inr a => result (k a (state_of (m st)))
    | inl e => inl e
    end.
Proof. unfold bind. destruct (result (m st)); reflexivity. Qed.

Lemma log_bind {A B} (m : M A) (k : A → M B) (st : appState) :
  log (bind m k st) =
    match result (m st) with
    | inr a => log (m st) ++ log (k a (state_of (m st)))
    | inl _ => log (m st)
    end.
Proof. unfold bind. destruct (result (m st)); reflexivity. Qed.

Lemma result_try_catch {A} (m : M A) (h : exn → M A) (st : appState) :
  result (try_catch m h st) =
    match result (m st) with
    | inr a => inr a
    | inl e => result (h e (state_of (m st)))
    end.
Proof. unfold try_catch. destruct (result (m st)) eqn:H; [reflexivity | exact H]. Qed.

Lemma log_try_catch {A} (m : M A) (h : exn → M A) (st : appState) :
  log (try_catch m h st) =
    match result (m st) with
    | inr _ => log (m st)
    | inl e => log (m st) ++ log (h e (state_of (m st)))
    end.
Proof. unfold try_catch. destruct (result (m st)); reflexivity. Qed.

Lemma result_bind_lift {A B} (r : exn + A) (k : A → M B) (st : appState) :
  result (bind (lift r) k st) =
    match r with
    | inr a => result (k a st)
    | inl e => inl e
    end.
Proof. destruct r; reflexivity. Qed.

Lemma log_bind_lift {A B} (r : exn + A) (k : A → M B) (st : appState) :
  log (bind (lift r) k st) =
    match r with
    | inr a => log (k a st)
    | inl e => []
    end.
Proof. destruct r; reflexivity. Qed.

(** ** Spreadsheet export *)

(** C8: an export request whose [businesses] member is missing, not a list
    or the empty list, and an export of an empty kept result, are answered
    with status 400 and the text [No data to export]; no export is ever
    answered with a workbook without rows. *)
Theorem export_empty_rejected (req : Webhook.exportBody) (st : appState) :
  no_rows (Webhook.x_businesses req) = true →
  latestBusinesses st = [] →
  Webhook.download_excel req = send_text 400 "No data to export"
  ∧ result (Polling.download_excel st) = inr (send_text 400 "No data to export")
  ∧ log (Polling.download_excel st) = []
  ∧ (∀ req' sheet, body (Webhook.download_excel req') ≠ Workbook sheet [])
  ∧ (∀ st' sheet r, result (Polling.download_excel st') = inr r → body r ≠ Workbook sheet []).
Proof.
  intros Hreq Hst. repeat split.
  - unfold Webhook.download_excel.
    destruct (Webhook.x_businesses req) as [v|[|row rows]]; try discriminate.
    + simpl. rewrite orb_true_r. reflexivity.
    + reflexivity.
  - unfold Polling.download_excel, bind, read_state. simpl. rewrite Hst. reflexivity.
  - unfold Polling.download_excel, bind, read_state. simpl. rewrite Hst. reflexivity.
  - intros req' sheet. unfold Webhook.download_excel.
    destruct (Webhook.x_businesses req') as [v|[|row rows]]; simpl.
    + rewrite orb_true_r. discriminate.
    + discriminate.
    + unfold send_workbook. case (header_safe _); discriminate.
  - intros st' sheet r. unfold Polling.download_excel, bind, read_state. simpl.
    destruct (latestBusinesses st') as [|row rows]; simpl.
    + intros [= <-]. discriminate.
    + intros [= <-]. unfold send_workbook. case (header_safe _); discriminate.
Qed.

Lemma export_empty_rejected_witness :
  no_rows (Webhook.x_businesses (Webhook.ExportBody (Array []) JUndefined)) = true
  ∧ latestBusinesses initial_state = []
  ∧ Webhook.download_excel (Webhook.ExportBody (Array []) JUndefined)
    = send_text 400 "No data to export".
Proof.
  split; [reflexivity|]. split; [reflexivity|].
  apply (export_empty_rejected (Webhook.ExportBody (Array []) JUndefined) initial_state);
    reflexivity.
Defined.

(** ** The rating line of a chat message *)

Lemma falsy_cases (v : jsval) :
  truthy v = false →
  v = JUndefined ∨ v = JNull ∨ v = JBool false ∨ v = JNum 0 ∨ v = JNaN ∨ v = JStr "".
Proof.
  destruct v as [| |[]|n| |s]; simpl; intros H; try discriminate; auto 10.
  - apply negb_false_iff, Z.eqb_eq in H as ->. auto 10.
  - apply negb_false_iff, String.eqb_eq in H as ->. auto 10.
Qed.

Lemma renderRecord_rating_line (b : rawRecord) (emails : list string)
    (st : appState) (msg : string) :
  result (renderRecord b emails st) = inr msg →
  ∃ r v, renderedRating b = inr r ∧ renderedReviews b = inr v
         ∧ substring_of ("Rating: " +:+ r +:+ " (" +:+ v +:+ " reviews)") msg.
Proof.
  unfold renderRecord. intros H.
  rewrite result_bind_lift in H. destruct (escapeMarkdown _) as [|name]; [discriminate|].
  rewrite result_bind_lift in H. destruct (escapeMarkdown _) as [|address]; [discriminate|].
  rewrite result_bind_lift in H. destruct (escapeMarkdown _) as [|phone]; [discriminate|].
  rewrite result_bind_lift in H. destruct (escapeMarkdown _) as [|website]; [discriminate|].
  rewrite result_bind_lift in H. destruct (renderedRating b) as [|r]; [discriminate|].
  rewrite result_bind_lift in H. destruct (renderedReviews b) as [|v]; [discriminate|].
  rewrite result_bind in H. destruct (result (mapM_ _ _ _)) as [|escaped]; [discriminate|].
  injection H as <-.
  exists r, v. split; [reflexivity|]. split; [reflexivity|].
  exists ("*" +:+ name +:+ "*" +:+ nl +:+ "Address: " +:+ address +:+ nl +:+
          "Phone: " +:+ phone +:+ nl +:+ "Website: " +:+ website +:+ nl).
  eexists. rewrite !sapp_assoc. reflexivity.
Qed.

(** C10 as stated fails: a listing whose [reviews] field is [false], a falsy
    value, is rendered with the review count ["false"]. *)
Lemma chat_reviews_false_counterexample :
  truthy (get {["reviews" := JBool false]} "reviews") = false
  ∧ renderedReviews {["reviews" := JBool false]} = inr "false"
  ∧ renderedReviews {["reviews" := JBool false]} ≠ inr "0".
Proof. split; [reflexivity|]. split; [reflexivity | discriminate]. Qed.

(** C10, amended: in the chat message a falsy [reviews] field is rendered as
    ["0"] when it is missing, [null], the number 0 or the empty string (the
    values [false] and [NaN] are rendered as their own text), where the
    normaliser stores ["N/A"]; the rating of the same line is ["N/A"] when
    the [rating] field is missing, [null] or the empty string; and both
    renderings make up the rating line of the message. *)
Theorem chat_reviews_default (b : rawRecord) :
  truthy (get b "reviews") = false →
  renderedReviews b =
    inr (match get b "reviews" with JBool _ => "false" | JNaN => "NaN" | _ => "0" end)
  ∧ (truthy (get b "review_count") = false →
     normalize b !! "reviews" = Some (JStr "N/A"))
  ∧ (get b "rating" = JUndefined ∨ get b "rating" = JNull ∨ get b "rating" = JStr "" →
     renderedRating b = inr "N/A")
  ∧ (∀ emails st msg,
       result (renderRecord b emails st) = inr msg →
       ∃ r v, renderedRating b = inr r ∧ renderedReviews b = inr v
              ∧ substring_of ("Rating: " +:+ r +:+ " (" +:+ v +:+ " reviews)") msg).
Proof.
  intros Hfalsy. split; [|split; [|split]].
  - unfold renderedReviews.
    destruct (falsy_cases _ Hfalsy) as [-> | [-> | [-> | [-> | [-> | ->]]]]]; reflexivity.
  - intros Hcount. unfold normalize.
    repeat (rewrite lookup_insert_ne by discriminate). rewrite lookup_insert_eq.
    rewrite (js_or_falsy (get b "reviews")) by exact Hfalsy.
    rewrite (js_or_falsy (get b "review_count")) by exact Hcount. reflexivity.
  - unfold renderedRating. intros [-> | [-> | ->]]; reflexivity.
  - apply renderRecord_rating_line.
Qed.

Lemma chat_reviews_default_witness :
  truthy (get ∅ "reviews") = false ∧ renderedReviews ∅ = inr "0".
Proof.
  split; [reflexivity|]. exact (proj1 (chat_reviews_default ∅ eq_refl)).
Defined.

(** ** Counting chat messages *)

Lemma sent_app (l1 l2 : list event) : sent (l1 ++ l2) = sent l1 ++ sent l2.
Proof. apply omap_app. Qed.

Lemma sam_weaken {A} (ok err ok' err' : nat) (m : M A) :
  sends_at_most ok err m → ok ≤ ok' → err ≤ err' → sends_at_most ok' err' m.
Proof.
  intros H Hok Herr st. specialize (H st). destruct (result (m st)); lia.
Qed.

Lemma sam_ret {A} (a : A) : sends_at_most 0 0 (ret a).
Proof. intros st. simpl. lia. Qed.

Lemma sam_lift {A} (r : exn + A) : sends_at_most 0 1 (lift r).
Proof. intros st. destruct r; simpl; lia. Qed.

Lemma sam_bind {A B} (a ea b eb : nat) (m : M A) (k : A → M B) :
  sends_at_most a ea m →
  (∀ x, sends_at_most b eb (k x)) →
  sends_at_most (a + b) (max ea (a + eb)) (bind m k).
Proof.
  intros Hm Hk st. rewrite log_bind, result_bind. specialize (Hm st).
  destruct (result (m st)) as [e|x]; [lia|].
  specialize (Hk x (state_of (m st))). rewrite sent_app, length_app.
  destruct (result (k x (state_of (m st)))); lia.
Qed.

Lemma sam_try_catch {A} (a ea b eb : nat) (m : M A) (h : exn → M A) :
  sends_at_most a ea m →
  (∀ e, sends_at_most b eb (h e)) →
  sends_at_most (max a (pred ea + b)) (pred ea + eb) (try_catch m h).
Proof.
  intros Hm Hh st. rewrite log_try_catch, result_try_catch. specialize (Hm st).
  destruct (result (m st)) as [e|x]; [|lia].
  specialize (Hh e (state_of (m st))). rewrite sent_app, length_app.
  destruct (result (h e (state_of (m st)))); lia.
Qed.

Lemma sam_if {A} (a ea : nat) (c : bool) (m1 m2 : M A) :
  sends_at_most a ea m1 → sends_at_most a ea m2 →
  sends_at_most a ea (if c then m1 else m2).
Proof. destruct c; auto. Qed.

Lemma webhook_send_outcome (w : world) (m : message) (st : appState) :
  Webhook.sendTelegramMessage w m st = Outcome st [TelegramSend m] (inr tt).
Proof.
  unfold Webhook.sendTelegramMessage, try_catch, bind, emit. simpl.
  destruct (telegram w m); reflexivity.
Qed.

Lemma sam_webhook_send (w : world) (m : message) :
  sends_at_most 1 0 (Webhook.sendTelegramMessage w m).
Proof. intros st. rewrite webhook_send_outcome. simpl. lia. Qed.

Lemma sam_polling_send (m : message) : sends_at_most 1 0 (Polling.sendMessage m).
Proof. intros st. simpl. lia. Qed.

Lemma sam_polling_await (w : world) (m : message) :
  sends_at_most 1 2 (Polling.await_sendMessage w m).
Proof.
  intros st. unfold Polling.await_sendMessage, bind, emit. simpl.
  destruct (telegram w m); simpl; lia.
Qed.

Lemma sam_scrape (w : world) (url : jsval) :
  sends_at_most 0 0 (scrapeEmailsFromWebsite w url).
Proof.
  intros st. rewrite scrape_result.
  unfold scrapeEmailsFromWebsite, axios_get_page, try_catch, bind, emit. simpl.
  destruct (page w url) as [[]|]; simpl; lia.
Qed.

Lemma sam_axios_get_serp (w : world) (p : serpParams) :
  sends_at_most 0 1 (axios_get_serp w p).
Proof.
  intros st. unfold axios_get_serp, bind, emit. simpl.
  destruct (serp w p); simpl; lia.
Qed.

Lemma sam_fetchBusinesses (w : world) (q : string) (gl : region) (engine : string) :
  sends_at_most 0 0 (fetchBusinesses w q gl engine).
Proof.
  intros st. unfold fetchBusinesses, axios_get_serp, try_catch, bind, emit. simpl.
  destruct (serp w _); simpl; lia.
Qed.

Lemma sam_mapM_lift {A B} (f : A → exn + B) (l : list A) :
  sends_at_most 0 1 (mapM_ (λ a, lift (f a)) l).
Proof.
  induction l as [|a l IH]; cbn [mapM_].
  - eapply sam_weaken; [apply sam_ret | lia | lia].
  - eapply sam_weaken.
    + eapply sam_bind; [apply sam_lift|]. intros b.
      eapply sam_bind; [apply IH|]. intros bs. apply sam_ret.
    + lia.
    + simpl. lia.
Qed.

Lemma sam_renderRecord (b : rawRecord) (emails : list string) :
  sends_at_most 0 1 (renderRecord b emails).
Proof.
  unfold renderRecord. eapply sam_weaken.
  - repeat (eapply sam_bind; [apply sam_lift | intros ?]).
    eapply sam_bind; [apply sam_mapM_lift | intros ?]. apply sam_ret.
  - lia.
  - simpl. lia.
Qed.

(** The delivery loop sends at most one message per record; when [send]
    cannot throw, an exception leaves at least one record undelivered. *)
Lemma sam_deliver (send : message → M unit) (e : nat) (w : world) (chatId : Z)
    (bs : list rawRecord) :
  (∀ m, sends_at_most 1 (e * 2) (send m)) → e ≤ 1 →
  sends_at_most (length bs) (length bs + e) (deliver send w chatId bs).
Proof.
  intros Hsend He. induction bs as [|b bs IH]; cbn [deliver].
  - eapply sam_weaken; [apply sam_ret | lia | lia].
  - eapply sam_weaken.
    + eapply sam_bind.
      * apply sam_if; [apply sam_scrape | apply sam_ret].
      * intros emails. eapply sam_bind; [apply sam_renderRecord|]. intros msg.
        eapply sam_bind; [apply Hsend|]. intros _. apply IH.
    + simpl. lia.
    + simpl. lia.
Qed.

Lemma length_slice_0_10 {A} (l : list A) : length (slice_0_10 l) ≤ 10.
Proof. unfold slice_0_10. rewrite length_take. lia. Qed.

Lemma sam_silent {A} (m : M A) :
  sends_at_most 0 1 m → ∀ st, sent (log (m st)) = [].
Proof.
  intros H st. specialize (H st). apply length_zero_iff_nil.
  destruct (result (m st)); lia.
Qed.

Lemma sam_deliver_webhook (w : world) (chatId : Z) (raw : list rawRecord) :
  sends_at_most 10 10
    (deliver (Webhook.sendTelegramMessage w) w chatId (slice_0_10 raw)).
Proof.
  pose proof (length_slice_0_10 raw).
  eapply sam_weaken.
  - apply (sam_deliver _ 0); [|lia]. intros m. apply sam_webhook_send.
  - lia.
  - lia.
Qed.

Lemma sam_deliver_polling (w : world) (chatId : Z) (raw : list rawRecord) :
  sends_at_most 10 11
    (deliver (Polling.await_sendMessage w) w chatId (slice_0_10 raw)).
Proof.
  pose proof (length_slice_0_10 raw).
  eapply sam_weaken.
  - apply (sam_deliver _ 1); [|lia]. intros m. apply sam_polling_await.
  - lia.
  - lia.
Qed.

Ltac sam_step :=
  first [ apply sam_ret | apply sam_lift | apply sam_webhook_send
        | apply sam_polling_send | apply sam_fetchBusinesses
        | apply sam_axios_get_serp ].

Ltac sam_leaf := eapply sam_weaken; [sam_step | simpl; lia | simpl; lia].

Lemma sam_webhook (w : world) (chatId : Z) (text : string) :
  sends_at_most 11 11 (Webhook.webhook w chatId text).
Proof.
  unfold Webhook.webhook.
  apply sam_if; [sam_leaf|]. apply sam_if; [sam_leaf|].
  destruct (parseCommand Webhook.validCountry text) as [[]|[keyword city country engine]].
  1-3: eapply sam_weaken;
         [eapply sam_bind; [sam_step | intros _; sam_step] | simpl; lia | simpl; lia].
  eapply sam_weaken.
  - do 3 (eapply sam_bind; [apply sam_lift | intros ?]).
    eapply sam_bind; [apply sam_webhook_send | intros _].
    eapply sam_bind.
    + eapply sam_try_catch.
      * eapply sam_bind; [apply sam_fetchBusinesses | intros businessesRaw].
        apply (sam_if 10 10).
        -- eapply sam_weaken;
             [eapply sam_bind; [sam_step | intros _; sam_step] | simpl; lia | simpl; lia].
        -- eapply sam_weaken;
             [eapply sam_bind; [apply sam_deliver_webhook | intros _; sam_step]
             | simpl; lia | simpl; lia].
      * intros e. eapply sam_bind; [sam_step | intros _; sam_step].
    + intros [r|]; sam_step.
  - simpl. lia.
  - simpl. lia.
Qed.

Lemma sam_settle (w : world) (m : message) : sends_at_most 0 1 (Polling.settle w m).
Proof. intros st. unfold Polling.settle. destruct (telegram w m); simpl; lia. Qed.

Lemma sam_polling_return (w : world) (m : message) :
  sends_at_most 1 2 (Polling.return_sendMessage w m).
Proof.
  intros st. unfold Polling.return_sendMessage, Polling.sendMessage, Polling.settle, bind, emit.
  simpl. destruct (telegram w m); simpl; lia.
Qed.

Lemma sam_onMessage (w : world) (chatId : Z) (text : string) :
  sends_at_most 12 13 (Polling.onMessage w chatId text).
Proof.
  unfold Polling.onMessage.
  apply sam_if; [sam_leaf|].
  destruct (parseCommand Polling.validCountry text) as [[]|[keyword city country engine]].
  1-3: eapply sam_weaken; [apply sam_polling_return | lia | lia].
  eapply sam_weaken.
  - do 3 (eapply sam_bind; [apply sam_lift | intros ?]).
    eapply sam_bind; [apply sam_polling_send | intros _].
    eapply sam_bind.
    + eapply sam_try_catch.
      * eapply sam_bind; [apply sam_axios_get_serp | intros data].
        apply (sam_if 10 11).
        -- eapply sam_weaken;
             [eapply sam_bind; [sam_step | intros _; sam_step] | simpl; lia | simpl; lia].
        -- eapply sam_weaken;
             [eapply sam_bind; [apply sam_deliver_polling | intros _; sam_step]
             | simpl; lia | simpl; lia].
      * intros e. eapply sam_bind; [sam_step | intros _; sam_step].
    + intros [m|]; [apply sam_settle | sam_leaf].
  - simpl. lia.
  - simpl. lia.
Qed.

Lemma sends_bound {A} (n : nat) (m : M A) (st : appState) :
  sends_at_most n n m → length (sent (log (m st))) ≤ n.
Proof. intros H. specialize (H st). destruct (result (m st)); lia. Qed.

Lemma sends_bound_S {A} (n : nat) (m : M A) (st : appState) :
  sends_at_most n (S n) m → length (sent (log (m st))) ≤ n.
Proof. intros H. specialize (H st). destruct (result (m st)); lia. Qed.

(** The messages of the delivery loop render, in order, an initial segment
    of the records it is given. *)
Lemma deliver_renders (send : message → M unit) (w : world) (chatId : Z) :
  (∀ m st, sent (log (send m st)) = [m]) →
  ∀ bs st, ∃ n,
    n ≤ length bs
    ∧ Forall2 (renders chatId) (take n bs) (sent (log (deliver send w chatId bs st))).
Proof.
  intros Hsend. induction bs as [|b bs IH]; intros st.
  - exists 0. split; [simpl; lia | constructor].
  - cbn [deliver].
    set (scrape := if truthy (get b "website")
                   then scrapeEmailsFromWebsite w (get b "website") else ret []).
    assert (∀ st', sent (log (scrape st')) = []) as Hscrape.
    { apply sam_silent. eapply sam_weaken;
        [apply sam_if; [apply sam_scrape | apply sam_ret] | lia | lia]. }
    rewrite log_bind.
    destruct (result (scrape st)) as [e|emails];
      [exists 0; rewrite Hscrape; split; [simpl; lia | constructor]|].
    rewrite sent_app, Hscrape, app_nil_l, log_bind.
    pose proof (sam_silent _ (sam_renderRecord b emails) (state_of (scrape st))) as Hsilent.
    destruct (result (renderRecord b emails (state_of (scrape st)))) as [e|msg] eqn:Hmsg;
      [exists 0; rewrite Hsilent; split; [simpl; lia | constructor]|].
    assert (renders chatId b (Message chatId msg markdown)) as Hrenders.
    { exists emails, (state_of (scrape st)). split; [exact Hmsg | split; reflexivity]. }
    rewrite sent_app, Hsilent, app_nil_l, log_bind.
    destruct (result (send _ _)) as [e|[]].
    + exists 1. rewrite Hsend. split; [simpl; lia|].
      cbn [firstn]. constructor; [exact Hrenders | constructor].
    + rewrite sent_app, Hsend.
      match goal with |- context [deliver send w chatId bs ?s] => destruct (IH s) as (n & Hn & HF) end.
      exists (S n). split; [simpl; lia|]. cbn [firstn app].
      constructor; [exact Hrenders | exact HF].
Qed.

Lemma deliver_first_ten (send : message → M unit) (w : world) (chatId : Z)
    (raw : list rawRecord) (st : appState) :
  (∀ m st, sent (log (send m st)) = [m]) →
  ∃ n, n ≤ 10
       ∧ Forall2 (renders chatId) (take n raw)
                 (sent (log (deliver send w chatId (slice_0_10 raw) st))).
Proof.
  intros Hsend.
  destruct (deliver_renders send w chatId Hsend (slice_0_10 raw) st) as (n & Hn & HF).
  pose proof (length_slice_0_10 raw) as Hlen.
  exists n. split; [lia|].
  unfold slice_0_10 in HF. rewrite take_take in HF.
  replace (n `min` 10) with n in HF by lia. exact HF.
Qed.

Lemma webhook_send_sent (w : world) (m : message) (st : appState) :
  sent (log (Webhook.sendTelegramMessage w m st)) = [m].
Proof. rewrite webhook_send_outcome. reflexivity. Qed.

Lemma polling_await_sent (w : world) (m : message) (st : appState) :
  sent (log (Polling.await_sendMessage w m st)) = [m].
Proof.
  unfold Polling.await_sendMessage, bind, emit. simpl.
  destruct (telegram w m); reflexivity.
Qed.

(** The bound of the polling handler is reached when the chat platform
    rejects the message of the tenth record: the announcement, ten record
    messages and the failure notice. *)
Example polling_twelve_messages :
  length (sent (log (Polling.onMessage
                       (World (λ _, Some (SerpData
                                 (Some (replicate 9 ∅ ++ [{["title" := JStr "last"]}]))
                                 None None))
                              (λ _, None)
                              (λ m, negb (String.prefix "*last" (text m))))
                       7 "/seo,usa" initial_state))) = 12.
Proof. vm_compute. reflexivity. Qed.

(** C7 as stated fails: with twelve results upstream the webhook handler
    sends eleven chat messages for one search, the announcement of the
    search and one message for each of the first ten records. *)
Lemma chat_eleven_messages_counterexample :
  length (sent (log (Webhook.webhook
                       (World (λ _, Some (SerpData (Some (replicate 12 ∅)) None None))
                              (λ _, None) (λ _, true))
                       7 "/seo,usa" initial_state))) = 11
  ∧ length (sent (log (Polling.onMessage
                         (World (λ _, Some (SerpData (Some (replicate 12 ∅)) None None))
                                (λ _, None) (λ _, true))
                         7 "/seo,usa" initial_state))) = 11.
Proof. split; vm_compute; reflexivity. Qed.

(** C7, amended: whatever the number of results upstream, the delivery loop
    sends at most ten chat messages, which render, in order, records among
    the first ten of the result list; with the announcement of the search
    the webhook handler sends at most eleven chat messages per command, and
    the polling handler, which may add a failure notice after a rejected
    send, at most twelve. *)
Theorem chat_message_bound (w : world) (chatId : Z) (text : string) (st : appState) :
  length (sent (log (Webhook.webhook w chatId text st))) ≤ 11
  ∧ length (sent (log (Polling.onMessage w chatId text st))) ≤ 12
  ∧ (∀ raw st', ∃ n,
       n ≤ 10
       ∧ Forall2 (renders chatId) (take n raw)
           (sent (log (deliver (Webhook.sendTelegramMessage w) w chatId
                               (slice_0_10 raw) st'))))
  ∧ (∀ raw st', ∃ n,
       n ≤ 10
       ∧ Forall2 (renders chatId) (take n raw)
           (sent (log (deliver (Polling.await_sendMessage w) w chatId
                               (slice_0_10 raw) st')))).
Proof.
  split; [|split; [|split]].
  - apply sends_bound, sam_webhook.
  - apply sends_bound_S, sam_onMessage.
  - intros raw st'. apply deliver_first_ten. apply webhook_send_sent.
  - intros raw st'. apply deliver_first_ten. apply polling_await_sent.
Qed.

(** ** Engine selection *)


Lemma log_fetchBusinesses (w : world) (q : string) (gl : region) (engine : string)
    (st : appState) :
  fetchBusinesses w q gl engine st =
    Outcome st [SerpRequest (serpRequest q gl engine)]
      (inr (match serp w (serpRequest q gl engine) with
            | Some data => resultsOf engine data
            | None => []
            end)).
Proof.
  unfold fetchBusinesses, axios_get_serp, try_catch, bind, emit. simpl.
  destruct (serp w _); reflexivity.
Qed.



Lemma escapeMarkdown_string (s : string) :
  escapeMarkdown (JStr s) = inr (escape_reserved s).
Proof.
  destruct s as [|c s]; [reflexivity|].
  unfold escapeMarkdown. cbn [truthy String.eqb negb].
  rewrite replaceAll_markdown. reflexivity.
Qed.

Lemma starts_bind {A B} (e : event) (m : M A) (k : A → M B) :
  starts_with e m → starts_with e (bind m k).
Proof.
  intros H st. destruct (H st) as [rest Hrest]. rewrite log_bind, Hrest.
  destruct (result (m st)); eexists; reflexivity.
Qed.

Lemma starts_try_catch {A} (e : event) (m : M A) (h : exn → M A) :
  starts_with e m → starts_with e (try_catch m h).
Proof.
  intros H st. destruct (H st) as [rest Hrest]. rewrite log_try_catch, Hrest.
  destruct (result (m st)); eexists; reflexivity.
Qed.

Lemma starts_fetchBusinesses (w : world) (q : string) (gl : region) (engine : string) :
  starts_with (SerpRequest (serpRequest q gl engine)) (fetchBusinesses w q gl engine).
Proof. intros st. rewrite log_fetchBusinesses. eexists; reflexivity. Qed.

Lemma starts_axios_get_serp (w : world) (p : serpParams) :
  starts_with (SerpRequest p) (axios_get_serp w p).
Proof.
  intros st. unfold axios_get_serp, bind, emit. simpl.
  destruct (serp w p); eexists; reflexivity.
Qed.



Lemma webhook_search_log (w : world) (chatId : Z) (rest : string) (cmd : command)
    (st : appState) :
  parseCommand Webhook.validCountry (String "/" rest) = inr cmd →
  ∃ announce more,
    log (Webhook.webhook w chatId (String "/" rest) st)
    = TelegramSend announce :: SerpRequest (searchOf cmd) :: more.
Proof.
  intros Hparse. unfold Webhook.webhook.
  change (String.eqb (String "/" rest) "") with false.
  change (startsWith "/" (String "/" rest)) with true.
  cbn [negb]. rewrite Hparse.
  destruct cmd as [keyword city country engine].
  rewrite escapeMarkdown_string, log_bind_lift.
  assert (∃ c, JStr city ||| JStr "N/A" = JStr c) as [c ->].
  { unfold js_or. destruct (truthy (JStr city)); eexists; reflexivity. }
  rewrite escapeMarkdown_string, log_bind_lift.
  rewrite escapeMarkdown_string, log_bind_lift.
  rewrite log_bind, webhook_send_outcome. cbn [result log state_of].
  match goal with
  | |- context [log (bind ?m ?k st)] =>
      destruct (starts_bind (SerpRequest (searchOf (Command keyword city country engine)))
                  m k) with (st := st) as [more Hmore]
  end.
  { apply starts_try_catch, starts_bind, starts_fetchBusinesses. }
  rewrite Hmore. eexists _, _. reflexivity.
Qed.

Lemma onMessage_search_log (w : world) (chatId : Z) (rest : string) (cmd : command)
    (st : appState) :
  parseCommand Polling.validCountry (String "/" rest) = inr cmd →
  ∃ announce more,
    log (Polling.onMessage w chatId (String "/" rest) st)
    = TelegramSend announce :: SerpRequest (searchOf cmd) :: more.
Proof.
  intros Hparse. unfold Polling.onMessage.
  change (String.eqb (String "/" rest) "") with false.
  change (startsWith "/" (String "/" rest)) with true.
  cbn [negb orb]. rewrite Hparse.
  destruct cmd as [keyword city country engine].
  do 3 rewrite escapeMarkdown_string, log_bind_lift.
  rewrite log_bind. cbn [Polling.sendMessage emit result log state_of].
  match goal with
  | |- context [log (bind ?m ?k st)] =>
      destruct (starts_bind (SerpRequest (searchOf (Command keyword city country engine)))
                  m k) with (st := st) as [more Hmore]
  end.
  { apply starts_try_catch, starts_bind, starts_axios_get_serp. }
  rewrite Hmore. eexists _, _. reflexivity.
Qed.


Lemma polling_return_outcome (w : world) (m : message) (st : appState) :
  Polling.return_sendMessage w m st
  = Outcome st [TelegramSend m] (if telegram w m then inr tt else inl NetworkError).
Proof.
  unfold Polling.return_sendMessage, Polling.sendMessage, Polling.settle, bind, emit.
  simpl. destruct (telegram w m); reflexivity.
Qed.





(** * Further properties of the handlers *)

(** ** State, totality and results of computations *)

Lemma ks_ret {A} (a : A) : keeps_state (ret a).
Proof. intros st. reflexivity. Qed.

Lemma ks_lift {A} (r : exn + A) : keeps_state (lift r).
Proof. intros st. destruct r; reflexivity. Qed.

Lemma ks_emit (e : event) : keeps_state (emit e).
Proof. intros st. reflexivity. Qed.

Lemma ks_bind {A B} (m : M A) (k : A → M B) :
  keeps_state m → (∀ x, keeps_state (k x)) → keeps_state (bind m k).
Proof.
  intros Hm Hk st. unfold bind. specialize (Hm st).
  destruct (result (m st)) as [e|x]; cbn [state_of]; [exact Hm|].
  rewrite Hk. exact Hm.
Qed.

Lemma ks_try_catch {A} (m : M A) (h : exn → M A) :
  keeps_state m → (∀ e, keeps_state (h e)) → keeps_state (try_catch m h).
Proof.
  intros Hm Hh st. unfold try_catch. specialize (Hm st).
  destruct (result (m st)) as [e|x]; cbn [state_of]; [|exact Hm].
  rewrite Hh. exact Hm.
Qed.

Lemma ks_if {A} (c : bool) (m1 m2 : M A) :
  keeps_state m1 → keeps_state m2 → keeps_state (if c then m1 else m2).
Proof. destruct c; auto. Qed.

Lemma ks_webhook_send (w : world) (m : message) :
  keeps_state (Webhook.sendTelegramMessage w m).
Proof. intros st. rewrite webhook_send_outcome. reflexivity. Qed.

Lemma ks_fetchBusinesses (w : world) (q : string) (gl : region) (engine : string) :
  keeps_state (fetchBusinesses w q gl engine).
Proof. intros st. rewrite log_fetchBusinesses. reflexivity. Qed.

Lemma ks_axios_get_serp (w : world) (p : serpParams) : keeps_state (axios_get_serp w p).
Proof.
  intros st. unfold axios_get_serp, bind, emit. simpl. destruct (serp w p); reflexivity.
Qed.

Lemma ks_scrape (w : world) (url : jsval) : keeps_state (scrapeEmailsFromWebsite w url).
Proof.
  intros st. unfold scrapeEmailsFromWebsite, axios_get_page, try_catch, bind, emit. simpl.
  destruct (page w url) as [[]|]; reflexivity.
Qed.

Lemma ks_polling_await (w : world) (m : message) :
  keeps_state (Polling.await_sendMessage w m).
Proof.
  intros st. unfold Polling.await_sendMessage, bind, emit. simpl.
  destruct (telegram w m); reflexivity.
Qed.

Lemma ks_mapM_lift {A B} (f : A → exn + B) (l : list A) :
  keeps_state (mapM_ (λ a, lift (f a)) l).
Proof.
  induction l as [|a l IH]; cbn [mapM_]; [apply ks_ret|].
  apply ks_bind; [apply ks_lift | intros b].
  apply ks_bind; [exact IH | intros bs; apply ks_ret].
Qed.

Lemma ks_renderRecord (b : rawRecord) (emails : list string) :
  keeps_state (renderRecord b emails).
Proof.
  unfold renderRecord.
  repeat (apply ks_bind; [apply ks_lift | intros ?]).
  apply ks_bind; [apply ks_mapM_lift | intros ?]. apply ks_ret.
Qed.

Lemma ks_deliver (send : message → M unit) (w : world) (chatId : Z) (bs : list rawRecord) :
  (∀ m, keeps_state (send m)) → keeps_state (deliver send w chatId bs).
Proof.
  intros Hsend. induction bs as [|b bs IH]; cbn [deliver]; [apply ks_ret|].
  apply ks_bind; [apply ks_if; [apply ks_scrape | apply ks_ret] | intros emails].
  apply ks_bind; [apply ks_renderRecord | intros msg].
  apply ks_bind; [apply Hsend | intros _; exact IH].
Qed.

Ltac ks_walk :=
  repeat first
    [ apply ks_ret | apply ks_lift | apply ks_emit | apply ks_webhook_send
    | apply ks_fetchBusinesses | apply ks_axios_get_serp | apply ks_polling_await
    | apply ks_deliver; intros ?
    | apply ks_bind; [|intros ?] | apply ks_try_catch; [|intros ?] | apply ks_if
    | match goal with
      | |- keeps_state (match ?x with _ => _ end) => destruct x
      end ].

(** X15: in the webhook variant no handler touches the kept result, and in the
    polling variant the chat listener does not: only [POST /search] of the
    polling variant writes it. *)
Theorem chat_and_webhook_keep_state (w : world) (chatId : Z) (text : string)
    (req : searchBody) (st : appState) :
  state_of (Webhook.search w req st) = st
  ∧ state_of (Webhook.webhook w chatId text st) = st
  ∧ state_of (Polling.onMessage w chatId text st) = st.
Proof.
  split; [|split].
  - assert (keeps_state (Webhook.search w req)) as H; [|apply H].
    unfold Webhook.search. ks_walk.
  - assert (keeps_state (Webhook.webhook w chatId text)) as H; [|apply H].
    unfold Webhook.webhook. ks_walk.
  - assert (keeps_state (Polling.onMessage w chatId text)) as H; [|apply H].
    unfold Polling.onMessage, Polling.sendMessage. ks_walk.
Qed.

Lemma nt_ret {A} (a : A) : never_throws (ret a).
Proof. intros st. eexists; reflexivity. Qed.

Lemma nt_bind {A B} (m : M A) (k : A → M B) :
  never_throws m → (∀ x, never_throws (k x)) → never_throws (bind m k).
Proof.
  intros Hm Hk st. rewrite result_bind. destruct (Hm st) as [a ->]. apply Hk.
Qed.

Lemma nt_try_catch {A} (m : M A) (h : exn → M A) :
  (∀ e, never_throws (h e)) → never_throws (try_catch m h).
Proof.
  intros Hh st. rewrite result_try_catch.
  destruct (result (m st)) as [e|a]; [apply Hh | eexists; reflexivity].
Qed.

Lemma nt_if {A} (c : bool) (m1 m2 : M A) :
  never_throws m1 → never_throws m2 → never_throws (if c then m1 else m2).
Proof. destruct c; auto. Qed.

Lemma nt_webhook_send (w : world) (m : message) :
  never_throws (Webhook.sendTelegramMessage w m).
Proof. intros st. rewrite webhook_send_outcome. eexists; reflexivity. Qed.

Lemma yields_ret {A} (P : A → Prop) (a : A) : P a → yields P (ret a).
Proof. intros H st a' [= <-]. exact H. Qed.

Lemma yields_bind {A B} (P : B → Prop) (m : M A) (k : A → M B) :
  (∀ x, yields P (k x)) → yields P (bind m k).
Proof.
  intros Hk st b. rewrite result_bind.
  destruct (result (m st)) as [e|x]; [discriminate | apply Hk].
Qed.

Lemma yields_try_catch {A} (P : A → Prop) (m : M A) (h : exn → M A) :
  yields P m → (∀ e, yields P (h e)) → yields P (try_catch m h).
Proof.
  intros Hm Hh st a. rewrite result_try_catch.
  destruct (result (m st)) as [e|x] eqn:Hr; [apply Hh|].
  intros [= <-]. apply (Hm st x Hr).
Qed.

Lemma yields_if {A} (P : A → Prop) (c : bool) (m1 m2 : M A) :
  yields P m1 → yields P m2 → yields P (if c then m1 else m2).
Proof. destruct c; auto. Qed.

Lemma js_or_strings (a b : string) : ∃ c, JStr a ||| JStr b = JStr c.
Proof. unfold js_or. destruct (truthy (JStr a)); eexists; reflexivity. Qed.

Lemma lift_inr {A} (a : A) : lift (inr a : exn + A) = ret a.
Proof. reflexivity. Qed.

(** ** The webhook handler always answers *)

Lemma nt_webhook (w : world) (chatId : Z) (text : string) :
  never_throws (Webhook.webhook w chatId text).
Proof.
  unfold Webhook.webhook.
  apply nt_if; [apply nt_ret|]. apply nt_if; [apply nt_ret|].
  destruct (parseCommand Webhook.validCountry text) as [[]|[keyword city country engine]].
  1-3: apply nt_bind; [apply nt_webhook_send | intros _; apply nt_ret].
  destruct (js_or_strings city "N/A") as [c ->].
  rewrite !escapeMarkdown_string, !lift_inr.
  do 3 (apply nt_bind; [apply nt_ret | intros ?]).
  apply nt_bind; [apply nt_webhook_send | intros _].
  apply nt_bind.
  - apply nt_try_catch. intros e.
    apply nt_bind; [apply nt_webhook_send | intros _; apply nt_ret].
  - intros [r|]; apply nt_ret.
Qed.

Lemma yields_webhook_200 (w : world) (chatId : Z) (text : string) :
  yields (λ r, status r = 200) (Webhook.webhook w chatId text).
Proof.
  unfold Webhook.webhook.
  apply yields_if; [apply yields_ret; reflexivity|].
  apply yields_if; [apply yields_ret; reflexivity|].
  destruct (parseCommand Webhook.validCountry text) as [[]|[keyword city country engine]].
  1-3: apply yields_bind; intros _; apply yields_ret; reflexivity.
  do 4 (apply yields_bind; intros ?).
  match goal with |- yields _ (bind ?m _) => set (block := m) end.
  intros st r. rewrite result_bind.
  destruct (result (block st)) as [e|[early|]] eqn:Hblock; [discriminate| |].
  - intros [= <-]. revert Hblock. unfold block.
    apply (yields_try_catch (λ o, match o with Some r => status r = 200 | None => True end)).
    + apply yields_bind. intros raw.
      apply yields_if; apply yields_bind; intros _; apply yields_ret; [reflexivity | exact I].
    + intros e. apply yields_bind. intros _. apply yields_ret. exact I.
  - intros [= <-]. reflexivity.
Qed.

(** ** Counting outbound requests *)

Lemma count_app (sel : event → bool) (l1 l2 : list event) :
  count sel (l1 ++ l2) = count sel l1 + count sel l2.
Proof. unfold count. rewrite filter_app, length_app. reflexivity. Qed.

Lemma count_nil (sel : event → bool) : count sel [] = 0.
Proof. reflexivity. Qed.

Lemma count_one (sel : event → bool) (e : event) :
  count sel [e] = if sel e then 1 else 0.
Proof.
  unfold count. rewrite filter_cons. destruct (sel e); case_decide; try congruence;
    reflexivity.
Qed.

Lemma scrape_log (w : world) (url : jsval) (st : appState) :
  log (scrapeEmailsFromWebsite w url st) = [PageRequest url].
Proof.
  unfold scrapeEmailsFromWebsite, axios_get_page, try_catch, bind, emit. simpl.
  destruct (page w url) as [[]|]; reflexivity.
Qed.

Lemma eam_weaken {A} (sel : event → bool) (ok err ok' err' : nat) (m : M A) :
  emits_at_most sel ok err m → ok ≤ ok' → err ≤ err' → emits_at_most sel ok' err' m.
Proof.
  intros H Hok Herr st. specialize (H st). destruct (result (m st)); lia.
Qed.

Lemma eam_ret {A} (sel : event → bool) (a : A) : emits_at_most sel 0 0 (ret a).
Proof. intros st. cbn [ret result log]. rewrite count_nil. lia. Qed.

Lemma eam_lift {A} (sel : event → bool) (r : exn + A) : emits_at_most sel 0 1 (lift r).
Proof.
  intros st. destruct r; cbn [lift ret throw result log]; rewrite count_nil; lia.
Qed.

Lemma eam_emit (sel : event → bool) (e : event) : emits_at_most sel 1 0 (emit e).
Proof.
  intros st. cbn [emit result log]. rewrite count_one. destruct (sel e); lia.
Qed.

Lemma eam_emit_other (sel : event → bool) (e : event) :
  sel e = false → emits_at_most sel 0 0 (emit e).
Proof.
  intros He st. cbn [emit result log]. rewrite count_one, He. lia.
Qed.

Lemma eam_bind {A B} (sel : event → bool) (a ea b eb : nat) (m : M A) (k : A → M B) :
  emits_at_most sel a ea m →
  (∀ x, emits_at_most sel b eb (k x)) →
  emits_at_most sel (a + b) (max ea (a + eb)) (bind m k).
Proof.
  intros Hm Hk st. rewrite log_bind, result_bind. specialize (Hm st).
  destruct (result (m st)) as [e|x]; [lia|].
  specialize (Hk x (state_of (m st))). rewrite count_app.
  destruct (result (k x (state_of (m st)))); lia.
Qed.

Lemma eam_try_catch {A} (sel : event → bool) (a ea b eb : nat) (m : M A) (h : exn → M A) :
  emits_at_most sel a ea m →
  (∀ e, emits_at_most sel b eb (h e)) →
  emits_at_most sel (max a (pred ea + b)) (pred ea + eb) (try_catch m h).
Proof.
  intros Hm Hh st. rewrite log_try_catch, result_try_catch. specialize (Hm st).
  destruct (result (m st)) as [e|x]; [|lia].
  specialize (Hh e (state_of (m st))). rewrite count_app.
  destruct (result (h e (state_of (m st)))); lia.
Qed.

Lemma eam_if {A} (sel : event → bool) (a ea : nat) (c : bool) (m1 m2 : M A) :
  emits_at_most sel a ea m1 → emits_at_most sel a ea m2 →
  emits_at_most sel a ea (if c then m1 else m2).
Proof. destruct c; auto. Qed.

Lemma eam_bound {A} (sel : event → bool) (n : nat) (m : M A) (st : appState) :
  emits_at_most sel n (S n) m → count sel (log (m st)) ≤ n.
Proof. intros H. specialize (H st). destruct (result (m st)); lia. Qed.

Lemma eam_webhook_send (sel : event → bool) (w : world) (m : message) :
  sel (TelegramSend m) = false →
  emits_at_most sel 0 0 (Webhook.sendTelegramMessage w m).
Proof.
  intros Hsel st. rewrite webhook_send_outcome. cbn [result log].
  rewrite count_one, Hsel. lia.
Qed.

Lemma eam_polling_await (sel : event → bool) (w : world) (m : message) :
  sel (TelegramSend m) = false →
  emits_at_most sel 0 1 (Polling.await_sendMessage w m).
Proof.
  intros Hsel st. unfold Polling.await_sendMessage, bind, emit. simpl.
  destruct (telegram w m); cbn [result log throw ret app]; rewrite count_one, Hsel; lia.
Qed.

Lemma eam_scrape (sel : event → bool) (w : world) (url : jsval) :
  emits_at_most sel 1 0 (scrapeEmailsFromWebsite w url).
Proof.
  intros st. rewrite scrape_result, scrape_log, count_one.
  destruct (page w url) as [[]|]; destruct (sel _); lia.
Qed.

Lemma eam_scrape_other (sel : event → bool) (w : world) (url : jsval) :
  sel (PageRequest url) = false →
  emits_at_most sel 0 0 (scrapeEmailsFromWebsite w url).
Proof.
  intros Hsel st. rewrite scrape_result, scrape_log, count_one, Hsel.
  destruct (page w url) as [[]|]; lia.
Qed.

Lemma eam_fetchBusinesses (sel : event → bool) (w : world) (q : string) (gl : region)
    (engine : string) :
  emits_at_most sel 1 0 (fetchBusinesses w q gl engine).
Proof.
  intros st. rewrite log_fetchBusinesses. cbn [result log].
  rewrite count_one. destruct (sel _); lia.
Qed.

Lemma eam_axios_get_serp (sel : event → bool) (w : world) (p : serpParams) :
  emits_at_most sel 1 2 (axios_get_serp w p).
Proof.
  intros st. unfold axios_get_serp, bind, emit. simpl.
  destruct (serp w p); cbn [result log throw ret app]; rewrite count_one;
    destruct (sel _); lia.
Qed.

Lemma eam_mapM_lift {A B} (sel : event → bool) (f : A → exn + B) (l : list A) :
  emits_at_most sel 0 1 (mapM_ (λ a, lift (f a)) l).
Proof.
  induction l as [|a l IH]; cbn [mapM_].
  - eapply eam_weaken; [apply eam_ret | lia | lia].
  - eapply eam_weaken.
    + eapply eam_bind; [apply eam_lift|]. intros b.
      eapply eam_bind; [apply IH|]. intros bs. apply eam_ret.
    + lia.
    + simpl. lia.
Qed.

Lemma eam_renderRecord (sel : event → bool) (b : rawRecord) (emails : list string) :
  emits_at_most sel 0 1 (renderRecord b emails).
Proof.
  unfold renderRecord. eapply eam_weaken.
  - repeat (eapply eam_bind; [apply eam_lift | intros ?]).
    eapply eam_bind; [apply eam_mapM_lift | intros ?]. apply eam_ret.
  - lia.
  - simpl. lia.
Qed.

(** The delivery loop issues, per record, at most [a] selected requests while
    scraping and [s] while sending. *)
Lemma eam_deliver (sel : event → bool) (a s : nat) (send : message → M unit)
    (w : world) (chatId : Z) (bs : list rawRecord) :
  (∀ url, emits_at_most sel a 0 (scrapeEmailsFromWebsite w url)) →
  (∀ m, emits_at_most sel s (S s) (send m)) →
  emits_at_most sel (length bs * (a + s)) (S (length bs * (a + s)))
    (deliver send w chatId bs).
Proof.
  intros Hscrape Hsend. induction bs as [|b bs IH]; cbn [deliver].
  - eapply eam_weaken; [apply eam_ret | simpl; lia | simpl; lia].
  - eapply eam_weaken.
    + eapply eam_bind.
      * apply (eam_if sel a 0); [apply Hscrape|].
        eapply eam_weaken; [apply eam_ret | lia | lia].
      * intros emails. eapply eam_bind; [apply eam_renderRecord|]. intros msg.
        eapply eam_bind; [apply Hsend|]. intros _. apply IH.
    + simpl. lia.
    + simpl. lia.
Qed.

Lemma eam_deliver_first_ten (sel : event → bool) (a : nat) (send : message → M unit)
    (w : world) (chatId : Z) (raw : list rawRecord) :
  (∀ url, emits_at_most sel a 0 (scrapeEmailsFromWebsite w url)) →
  (∀ m, emits_at_most sel 0 1 (send m)) →
  emits_at_most sel (10 * a) (S (10 * a)) (deliver send w chatId (slice_0_10 raw)).
Proof.
  intros Hscrape Hsend. pose proof (length_slice_0_10 raw) as Hlen.
  eapply eam_weaken; [apply (eam_deliver sel a 0); assumption | nia | nia].
Qed.

Lemma eam_webhook (sel : event → bool) (a f : nat) (w : world) (chatId : Z)
    (text : string) :
  (∀ m, sel (TelegramSend m) = false) →
  (∀ url, emits_at_most sel a 0 (scrapeEmailsFromWebsite w url)) →
  (∀ q gl engine, emits_at_most sel f 0 (fetchBusinesses w q gl engine)) →
  emits_at_most sel (f + 10 * a) (S (f + 10 * a)) (Webhook.webhook w chatId text).
Proof.
  intros Hsel Hscrape Hfetch.
  assert (∀ m, emits_at_most sel 0 0 (Webhook.sendTelegramMessage w m)) as Hsend.
  { intros m. apply eam_webhook_send, Hsel. }
  assert (∀ m r, emits_at_most sel 0 0
                   (Webhook.sendTelegramMessage w m;; ret (r : option response))) as Hreply.
  { intros m r. eapply eam_weaken;
      [eapply eam_bind; [apply Hsend | intros _; apply eam_ret] | simpl; lia | simpl; lia]. }
  unfold Webhook.webhook.
  apply eam_if; [eapply eam_weaken; [apply eam_ret | lia | lia]|].
  apply eam_if; [eapply eam_weaken; [apply eam_ret | lia | lia]|].
  destruct (parseCommand Webhook.validCountry text) as [[]|[keyword city country engine]].
  1-3: eapply eam_weaken;
         [eapply eam_bind; [apply Hsend | intros _; apply eam_ret] | simpl; lia | simpl; lia].
  eapply eam_weaken.
  - do 3 (eapply eam_bind; [apply eam_lift | intros ?]).
    eapply eam_bind; [apply Hsend | intros _].
    eapply eam_bind.
    + eapply eam_try_catch.
      * eapply eam_bind; [apply Hfetch | intros businessesRaw].
        apply (eam_if sel (10 * a) (S (10 * a))).
        -- eapply eam_weaken; [apply Hreply | lia | lia].
        -- eapply eam_weaken.
           ++ eapply eam_bind; [|intros _; apply eam_ret].
              apply eam_deliver_first_ten; [exact Hscrape|].
              intros m. eapply eam_weaken; [apply Hsend | lia | lia].
           ++ lia.
           ++ lia.
      * intros e. apply Hreply.
    + intros [r|]; apply eam_ret.
  - simpl. lia.
  - simpl. lia.
Qed.

Lemma eam_onMessage (sel : event → bool) (a f : nat) (w : world) (chatId : Z)
    (text : string) :
  (∀ m, sel (TelegramSend m) = false) →
  (∀ url, emits_at_most sel a 0 (scrapeEmailsFromWebsite w url)) →
  (∀ p, emits_at_most sel f (S f) (axios_get_serp w p)) →
  emits_at_most sel (f + 10 * a) (S (f + 10 * a)) (Polling.onMessage w chatId text).
Proof.
  intros Hsel Hscrape Hfetch.
  assert (∀ m, emits_at_most sel 0 0 (Polling.sendMessage m)) as Hsend.
  { intros m. apply eam_emit_other, Hsel. }
  assert (∀ m (r : option message),
            emits_at_most sel 0 0 (Polling.sendMessage m;; ret r)) as Hreply.
  { intros m r. eapply eam_weaken;
      [eapply eam_bind; [apply Hsend | intros _; apply eam_ret] | simpl; lia | simpl; lia]. }
  assert (∀ m, emits_at_most sel 0 1 (Polling.settle w m)) as Hsettle.
  { intros m st. unfold Polling.settle.
    destruct (telegram w m); cbn [ret throw result log]; rewrite count_nil; lia. }
  assert (∀ m, emits_at_most sel 0 1 (Polling.return_sendMessage w m)) as Hreturn.
  { intros m. eapply eam_weaken;
      [eapply eam_bind; [apply Hsend | intros _; apply Hsettle] | simpl; lia | simpl; lia]. }
  unfold Polling.onMessage.
  apply eam_if; [eapply eam_weaken; [apply eam_ret | lia | lia]|].
  destruct (parseCommand Polling.validCountry text) as [[]|[keyword city country engine]].
  1-3: eapply eam_weaken; [apply Hreturn | lia | lia].
  eapply eam_weaken.
  - do 3 (eapply eam_bind; [apply eam_lift | intros ?]).
    eapply eam_bind; [apply Hsend | intros _].
    eapply eam_bind.
    + eapply eam_try_catch.
      * eapply eam_bind; [apply Hfetch | intros data].
        apply (eam_if sel (10 * a) (S (10 * a))).
        -- eapply eam_weaken; [apply Hreply | lia | lia].
        -- eapply eam_weaken.
           ++ eapply eam_bind; [|intros _; apply eam_ret].
              apply eam_deliver_first_ten; [exact Hscrape|].
              intros m. apply eam_polling_await, Hsel.
           ++ lia.
           ++ lia.
      * intros e. apply Hreply.
    + intros [m|]; [apply Hsettle | eapply eam_weaken; [apply eam_ret | lia | lia]].
  - simpl. lia.
  - simpl. lia.
Qed.

Lemma eam_fetch_serp (w : world) (q : string) (gl : region) (engine : string) :
  emits_at_most is_serp 1 0 (fetchBusinesses w q gl engine).
Proof. apply eam_fetchBusinesses. Qed.

Lemma eam_fetch_page (w : world) (q : string) (gl : region) (engine : string) :
  emits_at_most is_page 0 0 (fetchBusinesses w q gl engine).
Proof. intros st. rewrite log_fetchBusinesses. cbn [result log]. rewrite count_one. simpl. lia. Qed.

Lemma eam_axios_page (w : world) (p : serpParams) :
  emits_at_most is_page 0 1 (axios_get_serp w p).
Proof.
  intros st. unfold axios_get_serp, bind, emit. simpl.
  destruct (serp w p); cbn [result log throw ret app]; rewrite count_one; simpl; lia.
Qed.

(** X9: for one chat message each handler makes at most one search API request
    and fetches at most ten web pages, whatever the number of results and
    whatever fails on the way. *)
Theorem chat_request_bounds (w : world) (chatId : Z) (text : string) (st : appState) :
  count is_serp (log (Webhook.webhook w chatId text st)) ≤ 1
  ∧ count is_page (log (Webhook.webhook w chatId text st)) ≤ 10
  ∧ count is_serp (log (Polling.onMessage w chatId text st)) ≤ 1
  ∧ count is_page (log (Polling.onMessage w chatId text st)) ≤ 10.
Proof.
  split; [|split; [|split]].
  - apply (eam_bound is_serp 1). apply (eam_webhook is_serp 0 1); try reflexivity.
    + intros url. apply eam_scrape_other. reflexivity.
    + intros q gl engine. apply eam_fetch_serp.
  - apply (eam_bound is_page 10). apply (eam_webhook is_page 1 0); try reflexivity.
    + intros url. apply eam_scrape.
    + intros q gl engine. apply eam_fetch_page.
  - apply (eam_bound is_serp 1). apply (eam_onMessage is_serp 0 1); try reflexivity.
    + intros url. apply eam_scrape_other. reflexivity.
    + intros p. apply eam_axios_get_serp.
  - apply (eam_bound is_page 10). apply (eam_onMessage is_page 1 0); try reflexivity.
    + intros url. apply eam_scrape.
    + intros p. apply eam_axios_page.
Qed.

(** ** Outcomes of a chat command *)

Lemma webhook_parse_error (w : world) (chatId : Z) (rest : string) (e : parseError)
    (st : appState) :
  parseCommand Webhook.validCountry (String "/" rest) = inl e →
  Webhook.webhook w chatId (String "/" rest) st
  = Outcome st [TelegramSend (errorReply chatId e)] (inr (send_text 200 (errorCode e))).
Proof.
  intros Hparse. unfold Webhook.webhook.
  change (String.eqb (String "/" rest) "") with false.
  change (startsWith "/" (String "/" rest)) with true.
  cbn [negb]. rewrite Hparse.
  destruct e; unfold bind; rewrite webhook_send_outcome; reflexivity.
Qed.

Lemma onMessage_parse_error (w : world) (chatId : Z) (rest : string) (e : parseError)
    (st : appState) :
  parseCommand Polling.validCountry (String "/" rest) = inl e →
  Polling.onMessage w chatId (String "/" rest) st
  = Outcome st [TelegramSend (errorReply chatId e)]
            (if telegram w (errorReply chatId e) then inr tt else inl NetworkError).
Proof.
  intros Hparse. unfold Polling.onMessage.
  change (String.eqb (String "/" rest) "") with false.
  change (startsWith "/" (String "/" rest)) with true.
  cbn [negb orb]. rewrite Hparse. destruct e; apply polling_return_outcome.
Qed.

Lemma count_serp_after (announce : message) (p : serpParams) (more : list event) :
  count is_serp (TelegramSend announce :: SerpRequest p :: more) ≤ 1 →
  count is_serp more = 0.
Proof.
  change (TelegramSend announce :: SerpRequest p :: more)
    with ([TelegramSend announce] ++ [SerpRequest p] ++ more).
  rewrite !count_app, !count_one. simpl. lia.
Qed.

(** X8: a chat command that does not parse makes the message handler send one
    message naming the error and no other request; the webhook handler then
    answers 200 whether or not the message was accepted, while the polling
    listener, which returns the promise of that send, rejects when the
    message is refused.  A command that parses is announced, then searched
    with exactly one search API request, the one of the parsed command. *)
Theorem chat_command_outcomes (w : world) (chatId : Z) (rest : string) (st : appState) :
  match parseCommand Webhook.validCountry (String "/" rest) with
  | inl e =>
      Webhook.webhook w chatId (String "/" rest) st
      = Outcome st [TelegramSend (errorReply chatId e)]
                (inr (send_text 200 (errorCode e)))
  | inr cmd =>
      ∃ announce more,
        log (Webhook.webhook w chatId (String "/" rest) st)
        = TelegramSend announce :: SerpRequest (searchOf cmd) :: more
        ∧ count is_serp more = 0
  end
  ∧ match parseCommand Polling.validCountry (String "/" rest) with
    | inl e =>
        Polling.onMessage w chatId (String "/" rest) st
        = Outcome st [TelegramSend (errorReply chatId e)]
                  (if telegram w (errorReply chatId e) then inr tt else inl NetworkError)
    | inr cmd =>
        ∃ announce more,
          log (Polling.onMessage w chatId (String "/" rest) st)
          = TelegramSend announce :: SerpRequest (searchOf cmd) :: more
          ∧ count is_serp more = 0
    end.
Proof.
  split.
  - destruct (parseCommand Webhook.validCountry (String "/" rest)) as [e|cmd] eqn:Hparse.
    + apply webhook_parse_error, Hparse.
    + destruct (webhook_search_log w chatId rest cmd st Hparse) as (announce & more & Hlog).
      exists announce, more. split; [exact Hlog|].
      apply (count_serp_after announce (searchOf cmd)). rewrite <- Hlog.
      apply (eam_bound is_serp 1). apply (eam_webhook is_serp 0 1); try reflexivity.
      * intros url. apply eam_scrape_other. reflexivity.
      * intros q gl engine. apply eam_fetch_serp.
  - destruct (parseCommand Polling.validCountry (String "/" rest)) as [e|cmd] eqn:Hparse.
    + apply onMessage_parse_error, Hparse.
    + destruct (onMessage_search_log w chatId rest cmd st Hparse) as (announce & more & Hlog).
      exists announce, more. split; [exact Hlog|].
      apply (count_serp_after announce (searchOf cmd)). rewrite <- Hlog.
      apply (eam_bound is_serp 1). apply (eam_onMessage is_serp 0 1); try reflexivity.
      * intros url. apply eam_scrape_other. reflexivity.
      * intros p. apply eam_axios_get_serp.
Qed.

Lemma bind_eq {A B} (m : M A) (k : A → M B) (st st' : appState) (l : list event) (a : A) :
  m st = Outcome st' l (inr a) →
  bind m k st = Outcome (state_of (k a st')) (l ++ log (k a st')) (result (k a st')).
Proof. intros H. unfold bind. rewrite H. reflexivity. Qed.

Lemma bind_ret {A B} (a : A) (k : A → M B) (st : appState) :
  bind (ret a) k st = k a st.
Proof. unfold bind, ret. cbn [result state_of log app]. destruct (k a st); reflexivity. Qed.

Lemma bind_eq_throw {A B} (m : M A) (k : A → M B) (st st' : appState) (l : list event)
    (e : exn) :
  m st = Outcome st' l (inl e) → bind m k st = Outcome st' l (inl e).
Proof. intros H. unfold bind. rewrite H. reflexivity. Qed.

Lemma try_catch_eq {A} (m : M A) (h : exn → M A) (st st' : appState) (l : list event)
    (a : A) :
  m st = Outcome st' l (inr a) → try_catch m h st = Outcome st' l (inr a).
Proof. intros H. unfold try_catch. rewrite H. reflexivity. Qed.

Lemma try_catch_eq_throw {A} (m : M A) (h : exn → M A) (st st' : appState)
    (l : list event) (e : exn) :
  m st = Outcome st' l (inl e) →
  try_catch m h st
  = Outcome (state_of (h e st')) (l ++ log (h e st')) (result (h e st')).
Proof. intros H. unfold try_catch. rewrite H. reflexivity. Qed.

Lemma fetchBusinesses_outcome (w : world) (q : string) (gl : region) (engine : string)
    (st : appState) :
  fetchBusinesses w q gl engine st =
    Outcome st [SerpRequest (serpRequest q gl engine)]
      (inr (upstreamResults w (serpRequest q gl engine))).
Proof. apply log_fetchBusinesses. Qed.

Lemma webhook_reply (w : world) (m : message) (r : option response) (st : appState) :
  (Webhook.sendTelegramMessage w m;; ret r) st = Outcome st [TelegramSend m] (inr r).
Proof. rewrite (bind_eq _ _ _ _ _ _ (webhook_send_outcome w m st)). reflexivity. Qed.

(** X10: in the webhook variant a failed search and a search without results look
    the same in the chat: after the announcement and the one search request
    the handler sends [No businesses found.] and nothing else. *)
Theorem webhook_no_results (w : world) (chatId : Z) (rest : string) (cmd : command)
    (st : appState) :
  parseCommand Webhook.validCountry (String "/" rest) = inr cmd →
  upstreamResults w (searchOf cmd) = [] →
  ∃ announce,
    Webhook.webhook w chatId (String "/" rest) st
    = Outcome st
        [ TelegramSend announce; SerpRequest (searchOf cmd);
          TelegramSend (Message chatId "No businesses found." None) ]
        (inr (send_text 200 "No businesses found")).
Proof.
  intros Hparse Hnone. unfold Webhook.webhook.
  change (String.eqb (String "/" rest) "") with false.
  change (startsWith "/" (String "/" rest)) with true.
  cbn [negb]. rewrite Hparse.
  destruct cmd as [keyword city country engine].
  destruct (js_or_strings city "N/A") as [c ->].
  rewrite !escapeMarkdown_string, !lift_inr.
  unfold searchOf in Hnone |- *. cbn [c_keyword c_city c_country c_engine] in Hnone |- *.
  eexists.
  do 3 (erewrite bind_eq by reflexivity; cbn beta).
  erewrite bind_eq by apply webhook_send_outcome.
  erewrite (bind_eq (try_catch _ _)).
  2: { apply try_catch_eq. erewrite bind_eq by apply fetchBusinesses_outcome.
       rewrite Hnone. cbn [length Nat.eqb]. rewrite webhook_reply. reflexivity. }
  reflexivity.
Qed.

Lemma webhook_no_results_witness :
  ∃ announce,
    Webhook.webhook (World (λ _, None) (λ _, None) (λ _, true)) 7 "/seo,usa" initial_state
    = Outcome initial_state
        [ TelegramSend announce;
          SerpRequest (searchOf (Command "seo" "" "usa" "google_maps"));
          TelegramSend (Message 7 "No businesses found." None) ]
        (inr (send_text 200 "No businesses found")).
Proof.
  apply (webhook_no_results (World (λ _, None) (λ _, None) (λ _, true)) 7 "seo,usa"
           (Command "seo" "" "usa" "google_maps") initial_state); reflexivity.
Defined.

Lemma axios_get_serp_outcome (w : world) (p : serpParams) (st : appState) :
  axios_get_serp w p st =
    Outcome st [SerpRequest p]
      (match serp w p with Some data => inr data | None => inl NetworkError end).
Proof.
  unfold axios_get_serp, bind, emit. simpl. destruct (serp w p); reflexivity.
Qed.

Lemma polling_reply (m : message) (r : option message) (st : appState) :
  (Polling.sendMessage m;; ret r) st = Outcome st [TelegramSend m] (inr r).
Proof. reflexivity. Qed.

(** X11: in the polling variant a failed search request is reported as
    [Something went wrong. Try again later.], and a search without results as
    [No businesses found.]; in both cases the listener requests nothing else.
    The failure notice is not waited for, so the listener returns; the
    [No businesses found.] send is returned from inside the [try] block, so
    the listener rejects when that message is refused. *)
Theorem polling_failure_or_no_results (w : world) (chatId : Z) (rest : string)
    (cmd : command) (st : appState) :
  parseCommand Polling.validCountry (String "/" rest) = inr cmd →
  upstreamResults w (searchOf cmd) = [] →
  ∃ announce,
    Polling.onMessage w chatId (String "/" rest) st
    = Outcome st
        [ TelegramSend announce; SerpRequest (searchOf cmd);
          TelegramSend
            (Message chatId
               (match serp w (searchOf cmd) with
                | Some _ => "No businesses found."
                | None => "Something went wrong. Try again later."
                end) None) ]
        (match serp w (searchOf cmd) with
         | Some _ =>
             if telegram w (Message chatId "No businesses found." None)
             then inr tt else inl NetworkError
         | None => inr tt
         end).
Proof.
  intros Hparse Hnone. unfold Polling.onMessage.
  change (String.eqb (String "/" rest) "") with false.
  change (startsWith "/" (String "/" rest)) with true.
  cbn [negb orb]. rewrite Hparse.
  destruct cmd as [keyword city country engine].
  rewrite !escapeMarkdown_string, !lift_inr.
  unfold upstreamResults, searchOf in Hnone |- *.
  cbn [c_keyword c_city c_country c_engine] in Hnone |- *.
  eexists.
  do 3 (erewrite bind_eq by reflexivity; cbn beta).
  erewrite bind_eq by reflexivity.
  destruct (serp w _) as [data|] eqn:Hserp.
  - erewrite (bind_eq (try_catch _ _)).
    2: { apply try_catch_eq.
         erewrite bind_eq by (rewrite axios_get_serp_outcome, Hserp; reflexivity).
         change (p_engine (serpRequest _ _ engine)) with engine in Hnone.
         rewrite Hnone. cbn [length Nat.eqb]. rewrite polling_reply. reflexivity. }
    unfold Polling.settle. destruct (telegram w _); reflexivity.
  - erewrite (bind_eq (try_catch _ _)).
    2: { erewrite try_catch_eq_throw.
         2: { erewrite bind_eq_throw by (rewrite axios_get_serp_outcome, Hserp; reflexivity).
              reflexivity. }
         rewrite polling_reply. reflexivity. }
    reflexivity.
Qed.

Lemma polling_failure_or_no_results_witness :
  ∃ announce,
    Polling.onMessage (World (λ _, None) (λ _, None) (λ _, true)) 7 "/seo,usa" initial_state
    = Outcome initial_state
        [ TelegramSend announce;
          SerpRequest (searchOf (Command "seo" "" "usa" "google_maps"));
          TelegramSend (Message 7 "Something went wrong. Try again later." None) ]
        (inr tt).
Proof.
  apply (polling_failure_or_no_results (World (λ _, None) (λ _, None) (λ _, true)) 7
           "seo,usa" (Command "seo" "" "usa" "google_maps") initial_state); reflexivity.
Defined.

(** ** What the chat handlers answer *)

Lemma onMessage_result (w : world) (chatId : Z) (text : string) (st : appState) :
  result (Polling.onMessage w chatId text st) = inr tt
  ∨ (result (Polling.onMessage w chatId text st) = inl NetworkError
     ∧ ∃ m, m ∈ returnedReplies chatId
            ∧ TelegramSend m ∈ log (Polling.onMessage w chatId text st)
            ∧ telegram w m = false).
Proof.
  unfold Polling.onMessage.
  destruct (String.eqb text "" || negb (startsWith "/" text)); [left; reflexivity|].
  destruct (parseCommand Polling.validCountry text) as [e|[keyword city country engine]].
  - assert (errorReply chatId e ∈ returnedReplies chatId) as Hin.
    { unfold returnedReplies. destruct e; set_solver. }
    destruct e; rewrite polling_return_outcome; cbn [result log];
      (destruct (telegram w _) eqn:Ht; [left; reflexivity|]);
      right; (split; [reflexivity|]); eexists; (split; [exact Hin|]);
      (split; [apply list_elem_of_singleton; reflexivity | exact Ht]).
  - rewrite !escapeMarkdown_string, !lift_inr, !bind_ret.
    rewrite result_bind, log_bind. cbn [Polling.sendMessage emit result state_of log].
    match goal with |- context [try_catch ?m ?h] => set (block := try_catch m h) end.
    assert (result (block st) = inr None
            ∨ (result (block st) = inr (Some (Message chatId "No businesses found." None))
               ∧ TelegramSend (Message chatId "No businesses found." None) ∈ log (block st)))
      as Hblock.
    { unfold block. rewrite result_try_catch, log_try_catch.
      rewrite result_bind, log_bind, axios_get_serp_outcome. cbn [result log state_of].
      destruct (serp w _) as [data|]; [|left; reflexivity].
      destruct (length (resultsOf engine data) =? 0).
      - right. rewrite polling_reply. cbn [result log app]. split; [reflexivity|]. set_solver.
      - rewrite result_bind. destruct (result (deliver _ _ _ _ _)); left; reflexivity. }
    rewrite result_bind, log_bind.
    destruct Hblock as [Hnone|[Hsome Hin]].
    + rewrite Hnone. left. reflexivity.
    + rewrite Hsome. unfold Polling.settle.
      destruct (telegram w _) eqn:Ht; [left; reflexivity|].
      right. split; [reflexivity|]. eexists. split; [|split; [|exact Ht]].
      * unfold returnedReplies. set_solver.
      * set_solver.
Qed.

Lemma webhook_request_result (w : world) (message : option Webhook.incoming)
    (st : appState) :
  if unreadable message
  then ∃ e, result (Webhook.webhook_request w message st) = inl e
  else ∃ r, result (Webhook.webhook_request w message st) = inr r ∧ status r = 200.
Proof.
  destruct message as [[text chat]|];
    [|exists (send_text 200 "No message"); split; reflexivity].
  unfold unreadable, Webhook.webhook_request. cbn [Webhook.i_text Webhook.i_chat].
  destruct (truthy text) eqn:Htext; cbn [negb andb];
    [|exists (send_text 200 "No message"); split; reflexivity].
  destruct chat as [chatId|].
  - rewrite bool_decide_eq_true_2 by (eexists; reflexivity). cbn [negb orb].
    destruct text as [| |b|n| |t]; cbn [is_string negb]; try (eexists; reflexivity).
    destruct (nt_webhook w chatId t st) as [r Hr]. exists r. split; [exact Hr|].
    apply (yields_webhook_200 w chatId t st r Hr).
  - rewrite bool_decide_eq_false_2 by (intros [? [=]]). cbn [negb orb].
    eexists; reflexivity.
Qed.

(** X7: what the chat handlers answer.  On a message with a chat and a string
    text the webhook handler returns a response, always with status 200,
    whatever the upstream answers and the records; on the request body it
    throws exactly when a message with a truthy text has no chat or a text
    that is not a string.  The polling listener returns unless one of the
    four replies whose promise it returns (format help, allowed countries,
    allowed engines, [No businesses found.]) is refused: then it rejects with
    the failure of that send, as happens for the format help in the last
    line. *)
Theorem chat_handlers_results (w : world) (chatId : Z) (text : string) (st : appState) :
  (∃ r, result (Webhook.webhook w chatId text st) = inr r ∧ status r = 200)
  ∧ (∀ message,
       if unreadable message
       then ∃ e, result (Webhook.webhook_request w message st) = inl e
       else ∃ r, result (Webhook.webhook_request w message st) = inr r ∧ status r = 200)
  ∧ (∀ e, result (Polling.onMessage w chatId text st) = inl e →
       e = NetworkError
       ∧ ∃ m, m ∈ returnedReplies chatId
              ∧ TelegramSend m ∈ log (Polling.onMessage w chatId text st)
              ∧ telegram w m = false)
  ∧ ((∀ m, m ∈ returnedReplies chatId → telegram w m = true) →
     result (Polling.onMessage w chatId text st) = inr tt)
  ∧ result (Polling.onMessage (World (λ _, None) (λ _, None) (λ _, false)) 7 "/seo"
              initial_state)
    = inl NetworkError.
Proof.
  split; [|split; [|split; [|split]]].
  - destruct (nt_webhook w chatId text st) as [r Hr]. exists r. split; [exact Hr|].
    apply (yields_webhook_200 w chatId text st r Hr).
  - intros message. apply webhook_request_result.
  - intros e He. destruct (onMessage_result w chatId text st) as [Hok|[Hfail Hm]].
    + rewrite Hok in He. discriminate.
    + rewrite Hfail in He. injection He as <-. split; [reflexivity | exact Hm].
  - intros Hall. destruct (onMessage_result w chatId text st) as [Hok|[_ (m & Hin & _ & Hm)]];
      [exact Hok|].
    rewrite (Hall m Hin) in Hm. discriminate.
  - reflexivity.
Qed.

Lemma chat_handlers_results_witness :
  (∀ m, m ∈ returnedReplies 7 → telegram (World (λ _, None) (λ _, None) (λ _, true)) m = true)
  ∧ result (Polling.onMessage (World (λ _, None) (λ _, None) (λ _, true)) 7 "/seo"
              initial_state)
    = inr tt.
Proof.
  split; [reflexivity|].
  apply (proj1 (proj2 (proj2 (proj2 (chat_handlers_results
                  (World (λ _, None) (λ _, None) (λ _, true)) 7 "/seo" initial_state))))).
  reflexivity.
Defined.

(** ** Outcomes of [POST /search] *)

Lemma selectedEngine_allowed (engine : jsval) :
  includes allowedEngines (selectedEngine engine) = true.
Proof.
  destruct engine as [| |b|n| |e]; try reflexivity. cbn [selectedEngine].
  destruct (includes allowedEngines e) eqn:He; [exact He | reflexivity].
Qed.

Lemma string_truthy_country (c : string) :
  region_truthy (countryMap_get (toLowerCase c)) = true → truthy (JStr c) = true.
Proof. destruct c; [discriminate | reflexivity]. Qed.

Lemma webhook_search_accepted (w : world) (req : searchBody) (c : string) (st : appState) :
  truthy (b_keyword req) = true →
  b_country req = JStr c →
  region_truthy (countryMap_get (toLowerCase c)) = true →
  Webhook.search w req st
  = Outcome st [SerpRequest (searchOfBody req c)]
      (inr (send_json 200
              (JsonBusinesses (map normalize (upstreamResults w (searchOfBody req c)))))).
Proof.
  intros Hk Hc Hr. unfold Webhook.search, searchOfBody.
  rewrite Hk, Hc, (string_truthy_country c Hr). cbn [negb orb method_on_string].
  rewrite lift_inr. unfold bind at 1. cbn [ret result state_of log].
  rewrite Hr. cbn [negb].
  unfold try_catch, bind. rewrite fetchBusinesses_outcome. reflexivity.
Qed.

(** X1: [POST /search] of the webhook variant either answers 400 without any
    outbound request, or makes exactly one search API request, with an
    engine of the allow-list, and answers 200 or 500; an answer 200 carries
    the normalised upstream results, and a failed search request is answered
    200 with the empty list, as a search without results.  It throws, before
    any request, only for a truthy country that is not a string. *)
Theorem webhook_search_outcomes (w : world) (req : searchBody) (st : appState) :
  match result (Webhook.search w req st) with
  | inr r =>
      (status r = 400 ∧ log (Webhook.search w req st) = [])
      ∨ (∃ p, log (Webhook.search w req st) = [SerpRequest p]
              ∧ includes allowedEngines (p_engine p) = true
              ∧ (status r = 200 ∨ status r = 500)
              ∧ (status r = 200 →
                 body r = JsonBusinesses (map normalize (upstreamResults w p)))
              ∧ (serp w p = None → r = send_json 200 (JsonBusinesses [])))
  | inl _ =>
      log (Webhook.search w req st) = []
      ∧ truthy (b_country req) = true ∧ is_string (b_country req) = false
  end.
Proof.
  destruct (truthy (b_keyword req)) eqn:Hk;
    [|unfold Webhook.search; rewrite Hk; left; split; reflexivity].
  destruct (truthy (b_country req)) eqn:Hct;
    [|unfold Webhook.search; rewrite Hk, Hct; left; split; reflexivity].
  destruct (b_country req) as [| |b|n| |c] eqn:Hc;
    try (unfold Webhook.search; rewrite Hk, Hc, Hct; repeat split; reflexivity).
  destruct (region_truthy (countryMap_get (toLowerCase c))) eqn:Hr.
  - rewrite (webhook_search_accepted w req c st Hk Hc Hr). cbn [result log].
    right. exists (searchOfBody req c).
    split; [reflexivity|]. split; [apply selectedEngine_allowed|].
    split; [left; reflexivity|]. split; [reflexivity|].
    intros Hnone. unfold upstreamResults. rewrite Hnone. reflexivity.
  - unfold Webhook.search. rewrite Hk, Hc, Hct. cbn [negb orb method_on_string].
    rewrite lift_inr, bind_ret, Hr. left. split; reflexivity.
Qed.

Lemma safe_cases (name : string) (v : jsval) :
  Polling.safe name v =
    if is_string v then inr (safeName (textOf v))
    else inl (TypeError (name +:+ " is not a function")).
Proof. destruct v; reflexivity. Qed.

Lemma safeCity_cases (city : jsval) :
  (if truthy city then lift (Polling.safe "city.trim" city) else ret EmptyString) =
    if negb (truthy city) || is_string city
    then ret (safeName (textOf city))
    else throw (TypeError ("city.trim" +:+ " is not a function")).
Proof.
  destruct city as [| |[]|n| |s]; try reflexivity.
  - cbn [truthy]. destruct (negb (n =? 0)%Z); reflexivity.
  - cbn [truthy]. destruct (negb (String.eqb s "")) eqn:Hs; [reflexivity|].
    apply negb_false_iff, String.eqb_eq in Hs. subst s. reflexivity.
Qed.

Lemma polling_search_stored (w : world) (req : searchBody) (c : string) (st : appState) :
  truthy (b_keyword req) = true →
  b_country req = JStr c →
  region_truthy (countryMap_get (toLowerCase c)) = true →
  let p := searchOfBody req c in
  let bs := map normalize (upstreamResults w p) in
  Polling.search w req st =
    if trimmable req
    then Outcome
           (AppState bs (derivedFilename (textOf (b_keyword req)) (textOf (b_city req)) c))
           [SerpRequest p] (inr (send_json 200 (JsonBusinesses bs)))
    else Outcome (AppState bs (latestFilename st)) [SerpRequest p]
           (inr (send_json 500 (JsonError "Failed to fetch data from SerpAPI"))).
Proof.
  intros Hk Hc Hr p bs. unfold Polling.search. fold (searchOfBody req c). fold p.
  assert (truthy (b_country req) = true) as Hct
    by (rewrite Hc; apply string_truthy_country, Hr).
  rewrite Hk, Hct. cbn [negb orb]. rewrite Hc at 1. cbn [method_on_string].
  rewrite lift_inr, bind_ret, Hr. cbn [negb].
  assert (Polling.safe "country.trim" (b_country req) = inr (safeName c)) as ->
    by (rewrite Hc; reflexivity).
  rewrite safeCity_cases, safe_cases. unfold trimmable.
  destruct (is_string (b_keyword req)); cbn [andb];
    [destruct (negb (truthy (b_city req)) || is_string (b_city req))|].
  - etransitivity;
      [eapply try_catch_eq;
       erewrite bind_eq by apply fetchBusinesses_outcome; reflexivity
      | reflexivity].
  - etransitivity;
      [eapply try_catch_eq_throw;
       erewrite bind_eq by apply fetchBusinesses_outcome; reflexivity
      | reflexivity].
  - etransitivity;
      [eapply try_catch_eq_throw;
       erewrite bind_eq by apply fetchBusinesses_outcome; reflexivity
      | reflexivity].
Qed.

(** ** File names of the polling variant *)

(** A greedy unbounded repetition followed by nothing takes the whole run. *)
Lemma repeat_match_run (p : ascii → bool) (s : string) :
  ∀ min,
    repeat_match p min None (λ s', Some (EmptyString, s')) s =
      if min <=? String.length (run p s) then Some (run p s, after_run p s) else None.
Proof.
  induction s as [|c s IH]; intros min.
  - destruct min; reflexivity.
  - cbn [repeat_match run after_run may_repeat fmap option_fmap option_map].
    destruct (p c); cbn [andb].
    + rewrite IH. cbn [String.length].
      destruct min as [|min]; cbn [pred Nat.leb]; [reflexivity|].
      destruct (min <=? String.length (run p s)); reflexivity.
    + destruct min; reflexivity.
Qed.

Lemma match_here_spaces (c : ascii) (s : string) :
  match_here Polling.spacesRegex (String c s) =
    if is_space c then Some (String c (run is_space s), after_run is_space s) else None.
Proof.
  unfold Polling.spacesRegex. cbn [match_here plus cls rmin rmax].
  rewrite repeat_match_run. cbn [run after_run]. destruct (is_space c); reflexivity.
Qed.

Lemma replace_spaces_collapse (s : string) :
  replace_from Polling.spacesRegex (λ _, "_") 0 s = collapse_from false s
  ∧ replace_from Polling.spacesRegex (λ _, "_") (String.length (run is_space s)) s
    = collapse_from true s.
Proof.
  induction s as [|c s [IH0 IHrun]]; [split; reflexivity|].
  assert (replace_from Polling.spacesRegex (λ _, "_") 0 (String c s)
          = collapse_from false (String c s)) as H0.
  { cbn [replace_from collapse_from]. rewrite match_here_spaces.
    destruct (is_space c).
    - cbn [String.length pred]. rewrite IHrun. reflexivity.
    - rewrite IH0. reflexivity. }
  split; [exact H0|].
  cbn [run]. destruct (is_space c) eqn:Hc.
  - cbn [String.length replace_from collapse_from]. rewrite Hc. exact IHrun.
  - cbn [String.length]. rewrite H0. cbn [collapse_from]. rewrite Hc. reflexivity.
Qed.

Lemma collapse_no_space (s : string) :
  ∀ in_run, string_forall not_space (collapse_from in_run s) = true.
Proof.
  induction s as [|c s IH]; intros in_run; [reflexivity|]. cbn [collapse_from].
  destruct (is_space c) eqn:Hc.
  - destruct in_run; [apply IH|]. cbn [string_forall]. rewrite IH. reflexivity.
  - cbn [string_forall]. unfold not_space at 1. rewrite Hc, IH. reflexivity.
Qed.

Lemma safeName_no_space (s : string) : string_forall not_space (safeName s) = true.
Proof.
  unfold safeName, replaceAll. rewrite (proj1 (replace_spaces_collapse _)).
  apply collapse_no_space.
Qed.

(** X6: the name made from a request field is the trimmed field with every
    maximal run of white space replaced by one underscore; it holds no
    white space. *)
Theorem safe_collapses_spaces (name s : string) :
  Polling.safe name (JStr s) = inr (collapse_from false (trim s))
  ∧ string_forall not_space (collapse_from false (trim s)) = true.
Proof.
  split; [|apply collapse_no_space].
  unfold Polling.safe. cbn [method_on_string]. unfold replaceAll.
  rewrite (proj1 (replace_spaces_collapse _)). reflexivity.
Qed.

Lemma derivedFilename_no_space (keyword city country : string) :
  string_forall not_space (derivedFilename keyword city country) = true.
Proof.
  unfold derivedFilename. rewrite !string_forall_sapp, !safeName_no_space.
  destruct (negb (String.eqb (safeName city) ""));
    rewrite ?string_forall_sapp, ?safeName_no_space; reflexivity.
Qed.

(** X5: after an accepted search of the polling variant the kept file name is
    [<keyword>[_<city>]_<country>.xlsx] built from the trimmed fields with
    white space collapsed to underscores: it ends in [.xlsx] and holds no
    white space. *)
Theorem polling_filename_derived (w : world) (req : searchBody) (c : string)
    (st : appState) :
  truthy (b_keyword req) = true →
  b_country req = JStr c →
  region_truthy (countryMap_get (toLowerCase c)) = true →
  trimmable req = true →
  let name := latestFilename (state_of (Polling.search w req st)) in
  name = derivedFilename (textOf (b_keyword req)) (textOf (b_city req)) c
  ∧ string_forall not_space name = true
  ∧ ∃ stem, name = stem +:+ ".xlsx".
Proof.
  intros Hk Hc Hr Ht name. subst name.
  rewrite (polling_search_stored w req c st Hk Hc Hr), Ht. cbn [state_of latestFilename].
  split; [reflexivity|]. split; [apply derivedFilename_no_space|].
  unfold derivedFilename. eexists. rewrite <- !sapp_assoc. reflexivity.
Qed.

Lemma polling_filename_derived_witness :
  latestFilename
    (state_of (Polling.search (World (λ _, None) (λ _, None) (λ _, true))
                 (SearchBody (JStr " web  design ") (JStr "USA") (JStr "new york") JUndefined)
                 initial_state))
  = "web_design_new_york_USA.xlsx".
Proof.
  exact (proj1 (polling_filename_derived (World (λ _, None) (λ _, None) (λ _, true))
                  (SearchBody (JStr " web  design ") (JStr "USA") (JStr "new york") JUndefined)
                  "USA" initial_state eq_refl eq_refl eq_refl eq_refl)).
Defined.

(** ** Search and export in the polling variant *)

(** X2: [POST /search] of the polling variant either answers 400 without any
    request and without touching the kept result, or makes exactly one
    search API request, with an engine of the allow-list, and answers 200 or
    500.  With an answer 200 the kept result is the list of the response,
    the normalised upstream results; with an answer 500 the kept file name
    is the one of before.  It throws, before any request and without
    touching the kept result, only for a truthy country that is not a
    string. *)
Theorem polling_search_outcomes (w : world) (req : searchBody) (st : appState) :
  let o := Polling.search w req st in
  match result o with
  | inr r =>
      (status r = 400 ∧ log o = [] ∧ state_of o = st)
      ∨ (∃ p, log o = [SerpRequest p]
              ∧ includes allowedEngines (p_engine p) = true
              ∧ (status r = 200 ∨ status r = 500)
              ∧ (status r = 200 →
                 body r = JsonBusinesses (latestBusinesses (state_of o))
                 ∧ latestBusinesses (state_of o) = map normalize (upstreamResults w p))
              ∧ (status r = 500 → latestFilename (state_of o) = latestFilename st))
  | inl _ =>
      log o = [] ∧ state_of o = st
      ∧ truthy (b_country req) = true ∧ is_string (b_country req) = false
  end.
Proof.
  intros o. subst o.
  destruct (truthy (b_keyword req)) eqn:Hk;
    [|unfold Polling.search; rewrite Hk; left; repeat split; reflexivity].
  destruct (truthy (b_country req)) eqn:Hct;
    [|unfold Polling.search; rewrite Hk, Hct; left; repeat split; reflexivity].
  destruct (b_country req) as [| |b|n| |c] eqn:Hc;
    try (unfold Polling.search; rewrite Hk, Hc, Hct; repeat split; reflexivity).
  destruct (region_truthy (countryMap_get (toLowerCase c))) eqn:Hr.
  - rewrite (polling_search_stored w req c st Hk Hc Hr).
    destruct (trimmable req); cbn [result log state_of latestBusinesses latestFilename];
      right; exists (searchOfBody req c);
      (split; [reflexivity|]); (split; [apply selectedEngine_allowed|]).
    + split; [left; reflexivity|]. split; [split; reflexivity | discriminate].
    + split; [right; reflexivity|]. split; [discriminate | reflexivity].
  - unfold Polling.search. rewrite Hk, Hc, Hct. cbn [negb orb method_on_string].
    rewrite lift_inr, bind_ret, Hr. left. repeat split; reflexivity.
Qed.







Lemma header_safe_sapp (a b : string) :
  header_safe (a +:+ b) = header_safe a && header_safe b.
Proof. apply string_forall_sapp. Qed.


Lemma header_safe_disposition (filename : string) :
  header_safe ("attachment; filename=" +:+ dq +:+ filename +:+ dq) = header_safe filename.
Proof.
  rewrite !header_safe_sapp.
  replace (header_safe "attachment; filename=") with true by reflexivity.
  replace (header_safe dq) with true by reflexivity.
  cbn [andb]. apply andb_true_r.
Qed.

Lemma send_workbook_cases (filename : string) (rows : list (gmap string jsval)) :
  send_workbook filename rows =
    if header_safe filename
    then Response 200 (xlsxHeaders filename) (Workbook "Businesses" rows)
    else uncaught (TypeError "Invalid character in header content").
Proof. unfold send_workbook. rewrite header_safe_disposition. reflexivity. Qed.

Lemma polling_download_cases (st : appState) :
  Polling.download_excel st =
    Outcome st []
      (inr (if length (latestBusinesses st) =? 0
            then send_text 400 "No data to export"
            else if header_safe (latestFilename st)
                 then Response 200 (xlsxHeaders (latestFilename st))
                        (Workbook "Businesses" (latestBusinesses st))
                 else uncaught (TypeError "Invalid character in header content"))).
Proof.
  unfold Polling.download_excel, bind, read_state. cbn [result state_of log].
  destruct (length (latestBusinesses st) =? 0); [reflexivity|].
  cbn [ret result state_of log app]. rewrite send_workbook_cases. reflexivity.
Qed.



(** X4: when the keyword, or a truthy city, of a search is not a string, the
    polling variant answers 500 after the one search request and keeps the
    previous file name.  When the upstream answered with lists of listings,
    the kept result has by then been replaced by the normalised results: a
    later export serves the new rows under the previous file name.  After a
    failed search request the kept result is empty and the export answers
    400. *)
Theorem polling_search_partial_update (w : world) (req : searchBody) (c : string)
    (st : appState) :
  truthy (b_keyword req) = true →
  b_country req = JStr c →
  region_truthy (countryMap_get (toLowerCase c)) = true →
  trimmable req = false →
  let o := Polling.search w req st in
  let p := searchOfBody req c in
  result o = inr (send_json 500 (JsonError "Failed to fetch data from SerpAPI"))
  ∧ log o = [SerpRequest p]
  ∧ latestFilename (state_of o) = latestFilename st
  ∧ (∀ data,
       serp w p = Some data →
       let bs := map normalize (resultsOf (p_engine p) data) in
       latestBusinesses (state_of o) = bs
       ∧ (bs ≠ [] → header_safe (latestFilename st) = true →
          result (Polling.download_excel (state_of o))
          = inr (Response 200 (xlsxHeaders (latestFilename st)) (Workbook "Businesses" bs))))
  ∧ (serp w p = None →
     state_of o = AppState [] (latestFilename st)
     ∧ result (Polling.download_excel (state_of o)) = inr (send_text 400 "No data to export")).
Proof.
  intros Hk Hc Hr Ht o p. subst o.
  rewrite polling_download_cases.
  rewrite (polling_search_stored w req c st Hk Hc Hr), Ht.
  cbn [result state_of log latestBusinesses latestFilename]. fold p.
  split; [reflexivity|]. split; [reflexivity|]. split; [reflexivity|]. split.
  - intros data Hdata. unfold upstreamResults. rewrite Hdata.
    split; [reflexivity|].
    intros Hbs Hsafe. rewrite Hsafe.
    destruct (map normalize (resultsOf (p_engine p) data)); [contradiction | reflexivity].
  - intros Hnone. unfold upstreamResults. rewrite Hnone. split; reflexivity.
Qed.

Lemma polling_search_partial_update_witness :
  state_of (Polling.search
              (World (λ _, Some (SerpData (Some [∅]) None None)) (λ _, None) (λ _, true))
              (SearchBody (JNum 5) (JStr "usa") JUndefined JUndefined)
              initial_state)
  = AppState [normalize ∅] "businesses.xlsx"
  ∧ result (Polling.download_excel (AppState [normalize ∅] "businesses.xlsx"))
    = inr (Response 200 (xlsxHeaders "businesses.xlsx") (Workbook "Businesses" [normalize ∅])).
Proof.
  pose proof (polling_search_partial_update
                (World (λ _, Some (SerpData (Some [∅]) None None)) (λ _, None) (λ _, true))
                (SearchBody (JNum 5) (JStr "usa") JUndefined JUndefined)
                "usa" initial_state eq_refl eq_refl eq_refl eq_refl)
    as (_ & _ & _ & Hdata & _).
  split; [reflexivity|].
  apply (Hdata (SerpData (Some [∅]) None None) eq_refl); [discriminate | reflexivity].
Defined.

(** ** Well-formed search requests *)

Lemma request_ok_serpRequest (q : string) (gl : region) (engine : string) :
  includes allowedEngines engine = true →
  request_ok (SerpRequest (serpRequest q gl engine)).
Proof.
  intros He. cbn [request_ok serpRequest p_engine p_gl p_hl]. split; [exact He|].
  unfold localized. destruct (String.eqb engine "google_maps" || String.eqb engine "google");
    split; try reflexivity. eexists; reflexivity.
Qed.

Lemma request_ok_others (l : list event) : count is_serp l = 0 → Forall request_ok l.
Proof.
  induction l as [|e l IH]; intros H; [constructor|].
  change (e :: l) with ([e] ++ l) in H. rewrite count_app, count_one in H.
  destruct e; simpl in H; try lia; constructor; try exact I; apply IH; lia.
Qed.

Lemma webhook_search_log_cases (w : world) (req : searchBody) (st : appState) :
  log (Webhook.search w req st) = []
  ∨ ∃ c, log (Webhook.search w req st) = [SerpRequest (searchOfBody req c)].
Proof.
  destruct (truthy (b_keyword req)) eqn:Hk;
    [|unfold Webhook.search; rewrite Hk; left; reflexivity].
  destruct (truthy (b_country req)) eqn:Hct;
    [|unfold Webhook.search; rewrite Hk, Hct; left; reflexivity].
  destruct (b_country req) as [| |b|n| |c] eqn:Hc;
    try (unfold Webhook.search; rewrite Hk, Hc, Hct; left; reflexivity).
  destruct (region_truthy (countryMap_get (toLowerCase c))) eqn:Hr.
  - right. exists c. rewrite (webhook_search_accepted w req c st Hk Hc Hr). reflexivity.
  - unfold Webhook.search. rewrite Hk, Hc, Hct. cbn [negb orb method_on_string].
    rewrite lift_inr, bind_ret, Hr. left. reflexivity.
Qed.

Lemma polling_search_log_cases (w : world) (req : searchBody) (st : appState) :
  log (Polling.search w req st) = []
  ∨ ∃ c, log (Polling.search w req st) = [SerpRequest (searchOfBody req c)].
Proof.
  destruct (truthy (b_keyword req)) eqn:Hk;
    [|unfold Polling.search; rewrite Hk; left; reflexivity].
  destruct (truthy (b_country req)) eqn:Hct;
    [|unfold Polling.search; rewrite Hk, Hct; left; reflexivity].
  destruct (b_country req) as [| |b|n| |c] eqn:Hc;
    try (unfold Polling.search; rewrite Hk, Hc, Hct; left; reflexivity).
  destruct (region_truthy (countryMap_get (toLowerCase c))) eqn:Hr.
  - right. exists c. rewrite (polling_search_stored w req c st Hk Hc Hr).
    destruct (trimmable req); reflexivity.
  - unfold Polling.search. rewrite Hk, Hc, Hct. cbn [negb orb method_on_string].
    rewrite lift_inr, bind_ret, Hr. left. reflexivity.
Qed.

Lemma not_command_cases (text : string) :
  String.eqb text "" || negb (startsWith "/" text) = true ∨ ∃ rest, text = String "/" rest.
Proof.
  destruct text as [|c rest]; [left; reflexivity|].
  destruct (Ascii.eqb_spec c "/") as [->|Hne]; [right; eexists; reflexivity|].
  left. cbn [String.eqb orb startsWith].
  destruct (Ascii.eqb_spec c "/"); [contradiction | reflexivity].
Qed.

Lemma webhook_not_command (w : world) (chatId : Z) (text : string) (st : appState) :
  String.eqb text "" || negb (startsWith "/" text) = true →
  Webhook.webhook w chatId text st
  = Outcome st [] (inr (send_text 200 (if String.eqb text "" then "No message" else "Ignored"))).
Proof.
  intros H. unfold Webhook.webhook.
  destruct (String.eqb text ""); [reflexivity|].
  cbn [orb] in H. rewrite H. reflexivity.
Qed.

Lemma onMessage_not_command (w : world) (chatId : Z) (text : string) (st : appState) :
  String.eqb text "" || negb (startsWith "/" text) = true →
  Polling.onMessage w chatId text st = Outcome st [] (inr tt).
Proof. intros H. unfold Polling.onMessage. rewrite H. reflexivity. Qed.

Lemma webhook_log_ok (w : world) (chatId : Z) (text : string) (st : appState) :
  Forall request_ok (log (Webhook.webhook w chatId text st)).
Proof.
  destruct (not_command_cases text) as [H|[rest ->]];
    [rewrite (webhook_not_command w chatId text st H); constructor|].
  destruct (parseCommand Webhook.validCountry (String "/" rest)) as [e|cmd] eqn:Hparse.
  - rewrite (webhook_parse_error w chatId rest e st Hparse).
    repeat constructor.
  - destruct (webhook_search_log w chatId rest cmd st Hparse) as (announce & more & Hlog).
    assert (count is_serp (log (Webhook.webhook w chatId (String "/" rest) st)) ≤ 1) as Hle.
    { apply (eam_bound is_serp 1). apply (eam_webhook is_serp 0 1); try reflexivity.
      - intros url. apply eam_scrape_other. reflexivity.
      - intros q gl engine. apply eam_fetch_serp. }
    rewrite Hlog in Hle |- *. apply count_serp_after in Hle.
    constructor; [exact I|]. constructor; [|apply request_ok_others, Hle].
    apply request_ok_serpRequest. apply parseCommand_inr in Hparse. tauto.
Qed.

Lemma onMessage_log_ok (w : world) (chatId : Z) (text : string) (st : appState) :
  Forall request_ok (log (Polling.onMessage w chatId text st)).
Proof.
  destruct (not_command_cases text) as [H|[rest ->]];
    [rewrite (onMessage_not_command w chatId text st H); constructor|].
  destruct (parseCommand Polling.validCountry (String "/" rest)) as [e|cmd] eqn:Hparse.
  - rewrite (onMessage_parse_error w chatId rest e st Hparse).
    repeat constructor.
  - destruct (onMessage_search_log w chatId rest cmd st Hparse) as (announce & more & Hlog).
    assert (count is_serp (log (Polling.onMessage w chatId (String "/" rest) st)) ≤ 1) as Hle.
    { apply (eam_bound is_serp 1). apply (eam_onMessage is_serp 0 1); try reflexivity.
      - intros url. apply eam_scrape_other. reflexivity.
      - intros p. apply eam_axios_get_serp. }
    rewrite Hlog in Hle |- *. apply count_serp_after in Hle.
    constructor; [exact I|]. constructor; [|apply request_ok_others, Hle].
    apply request_ok_serpRequest. apply parseCommand_inr in Hparse. tauto.
Qed.

(** X13: every search API request of every handler names an engine of the
    allow-list, and carries the region and the language [en] exactly when
    the engine is [google_maps] or [google]. *)
Theorem requests_well_formed (w : world) (chatId : Z) (text : string)
    (req : searchBody) (st : appState) :
  Forall request_ok (log (Webhook.search w req st))
  ∧ Forall request_ok (log (Polling.search w req st))
  ∧ Forall request_ok (log (Webhook.webhook w chatId text st))
  ∧ Forall request_ok (log (Polling.onMessage w chatId text st)).
Proof.
  split; [|split; [|split]].
  - destruct (webhook_search_log_cases w req st) as [->|[c ->]]; repeat constructor.
    + apply selectedEngine_allowed.
    + apply (request_ok_serpRequest _ _ _ (selectedEngine_allowed (b_engine req))).
  - destruct (polling_search_log_cases w req st) as [->|[c ->]]; repeat constructor.
    + apply selectedEngine_allowed.
    + apply (request_ok_serpRequest _ _ _ (selectedEngine_allowed (b_engine req))).
  - apply webhook_log_ok.
  - apply onMessage_log_ok.
Qed.

(** ** Further properties of the pure functions *)

Lemma get_insert_eq (m : rawRecord) (k : string) (v : jsval) : get (<[k := v]> m) k = v.
Proof. unfold get. rewrite lookup_insert_eq. reflexivity. Qed.

Lemma get_insert_ne (m : rawRecord) (k k' : string) (v : jsval) :
  k ≠ k' → get (<[k := v]> m) k' = get m k'.
Proof. intros H. unfold get. rewrite lookup_insert_ne by exact H. reflexivity. Qed.

Lemma js_or_default_truthy (a d : jsval) : truthy d = true → truthy (a ||| d) = true.
Proof. intros Hd. unfold js_or. destruct (truthy a) eqn:Ha; [exact Ha | exact Hd]. Qed.

Lemma js_or_absorb (a d : jsval) : truthy d = true → (a ||| d) ||| d = a ||| d.
Proof. intros Hd. apply js_or_truthy, js_or_default_truthy, Hd. Qed.

(** X19: normalising a canonical record changes nothing: the normaliser is
    idempotent. *)
Theorem normalize_idempotent (b : rawRecord) : normalize (normalize b) = normalize b.
Proof.
  set (n := normalize b).
  assert (get n "title" = JUndefined ∧ get n "street_address" = JUndefined
          ∧ get n "url" = JUndefined ∧ get n "review_count" = JUndefined) as (Ht & Hs & Hu & Hr).
  { unfold n, normalize, get.
    repeat split; repeat (rewrite lookup_insert_ne by discriminate); reflexivity. }
  assert (get n "name" = get b "title" ||| get b "name" ||| JStr "No Name") as Hname.
  { unfold n, normalize. apply get_insert_eq. }
  assert (get n "address" = get b "address" ||| get b "street_address" ||| JStr "N/A") as Haddr.
  { unfold n, normalize. rewrite get_insert_ne by discriminate. apply get_insert_eq. }
  assert (get n "phone" = get b "phone" ||| JStr "N/A") as Hphone.
  { unfold n, normalize. rewrite !get_insert_ne by discriminate. apply get_insert_eq. }
  assert (get n "website" = get b "website" ||| get b "url" ||| JStr "N/A") as Hweb.
  { unfold n, normalize. rewrite !get_insert_ne by discriminate. apply get_insert_eq. }
  assert (get n "rating" = get b "rating" ||| JStr "N/A") as Hrating.
  { unfold n, normalize. rewrite !get_insert_ne by discriminate. apply get_insert_eq. }
  assert (get n "reviews" = get b "reviews" ||| get b "review_count" ||| JStr "N/A") as Hrev.
  { unfold n, normalize. rewrite !get_insert_ne by discriminate. apply get_insert_eq. }
  unfold normalize at 1.
  rewrite Ht, Hs, Hu, Hr, Hname, Haddr, Hphone, Hweb, Hrating, Hrev.
  rewrite !(js_or_falsy JUndefined) by reflexivity.
  rewrite !(js_or_truthy (_ ||| JStr "N/A") JUndefined)
    by (apply js_or_default_truthy; reflexivity).
  rewrite !js_or_absorb by reflexivity.
  reflexivity.
Qed.

Lemma split_segment (sep : ascii) (seg : string) :
  string_forall (λ c, negb (Ascii.eqb c sep)) seg = true → split sep seg = [seg].
Proof.
  induction seg as [|c seg IH]; [reflexivity|]. simpl.
  intros H. apply andb_true_iff in H as [Hc Hseg].
  apply negb_true_iff in Hc. rewrite Hc, (IH Hseg). reflexivity.
Qed.

Lemma split_sapp (sep : ascii) (seg rest : string) :
  string_forall (λ c, negb (Ascii.eqb c sep)) seg = true →
  split sep (seg +:+ String sep rest) = seg :: split sep rest.
Proof.
  induction seg as [|c seg IH]; intros H.
  - rewrite sapp_nil_l. cbn [split]. rewrite Ascii.eqb_refl. reflexivity.
  - simpl in H. apply andb_true_iff in H as [Hc Hseg]. apply negb_true_iff in Hc.
    rewrite sapp_cons. cbn [split]. rewrite Hc, (IH Hseg). reflexivity.
Qed.

(** X17: splitting undoes joining: comma-free segments joined with commas are
    recovered by [split], so a chat command written from such segments is
    parsed into exactly these segments, trimmed. *)
Theorem split_join (segments : list string) :
  segments ≠ [] →
  Forall (λ seg, string_forall (λ c, negb (Ascii.eqb c ",")) seg = true) segments →
  split "," (join "," segments) = segments
  ∧ commandParts (String "/" (join "," segments)) = map trim segments.
Proof.
  intros Hne Hall.
  assert (split "," (join "," segments) = segments) as Hsplit.
  { induction segments as [|seg [|seg' segments] IH]; [contradiction| |].
    - apply Forall_cons in Hall as [Hseg _]. apply split_segment, Hseg.
    - apply Forall_cons in Hall as [Hseg Hrest].
      rewrite join_cons_cons, sapp_cons, sapp_nil_l, split_sapp by exact Hseg.
      rewrite IH; [reflexivity | discriminate | exact Hrest]. }
  split; [exact Hsplit|]. unfold commandParts. cbn [slice1]. rewrite Hsplit. reflexivity.
Qed.

Lemma split_join_witness :
  commandParts (String "/" (join "," ["seo"; " new york "; "usa"]))
  = ["seo"; "new york"; "usa"].
Proof.
  apply (split_join ["seo"; " new york "; "usa"]).
  - discriminate.
  - repeat constructor.
Defined.

Lemma escape_reserved_length (s : string) :
  String.length (escape_reserved s) = String.length s + reserved_count s.
Proof.
  induction s as [|c s IH]; [reflexivity|]. cbn [escape_reserved reserved_count].
  rewrite markdownClass_reserved. destruct (bool_decide _); simpl; rewrite IH; lia.
Qed.

Lemma reserved_count_le (s : string) : reserved_count s ≤ String.length s.
Proof.
  induction s as [|c s IH]; [reflexivity|]. cbn [reserved_count String.length].
  destruct (markdownClass c); lia.
Qed.

Lemma escape_reserved_head (c : ascii) (out s : string) :
  String c out = escape_reserved s → c ∉ reservedCharacters.
Proof.
  intros H Hc.
  destruct (escape_reserved_preceded s 0 c) as (j & Hj & _);
    [rewrite <- H; reflexivity | exact Hc | discriminate Hj].
Qed.

Lemma escape_reserved_inj (s1 : string) :
  ∀ s2, escape_reserved s1 = escape_reserved s2 → s1 = s2.
Proof.
  induction s1 as [|c1 s1 IH]; intros [|c2 s2] H; cbn [escape_reserved] in H.
  - reflexivity.
  - destruct (bool_decide _); discriminate.
  - destruct (bool_decide _); discriminate.
  - case_bool_decide as H1; case_bool_decide as H2.
    + injection H as -> H. rewrite (IH s2 H). reflexivity.
    + injection H as _ H. destruct (escape_reserved_head _ _ _ H H1).
    + injection H as _ H. destruct (escape_reserved_head _ _ _ (eq_sym H) H2).
    + injection H as -> H. rewrite (IH s2 H). reflexivity.
Qed.

(** X20: escaping loses nothing and at most doubles the text: different texts
    have different escaped forms, and the escaped form is longer than the
    text by the number of its reserved characters. *)
Theorem escapeMarkdown_injective (s1 s2 : string) :
  (escapeMarkdown (JStr s1) = escapeMarkdown (JStr s2) → s1 = s2)
  ∧ ∃ out, escapeMarkdown (JStr s1) = inr out
           ∧ String.length out = String.length s1 + reserved_count s1
           ∧ String.length s1 ≤ String.length out ≤ 2 * String.length s1.
Proof.
  rewrite !escapeMarkdown_string. split.
  - intros [= H]. apply escape_reserved_inj, H.
  - exists (escape_reserved s1). split; [reflexivity|].
    pose proof (escape_reserved_length s1). pose proof (reserved_count_le s1). lia.
Qed.

Lemma escapeMarkdown_injective_witness :
  escapeMarkdown (JStr "a.b") = escapeMarkdown (JStr "a.b") ∧ "a.b" = "a.b".
Proof.
  split; [reflexivity|]. apply (proj1 (escapeMarkdown_injective "a.b" "a.b")). reflexivity.
Defined.

(** ** Delivery of the records *)

Lemma outcome_ext {A} (o : outcome A) (s : appState) (l : list event) (r : exn + A) :
  state_of o = s → log o = l → result o = r → o = Outcome s l r.
Proof. destruct o. cbn. intros -> -> ->. reflexivity. Qed.

Lemma scrape_outcome (w : world) (url : jsval) (st : appState) :
  ∃ emails, scrapeEmailsFromWebsite w url st = Outcome st [PageRequest url] (inr emails).
Proof.
  destruct (result (scrapeEmailsFromWebsite w url st)) as [e|emails] eqn:Hres.
  - rewrite scrape_result in Hres. destruct (page w url) as [[]|]; discriminate.
  - exists emails. apply outcome_ext; [apply ks_scrape | apply scrape_log | exact Hres].
Qed.

Lemma escapeMarkdown_truthy (v : jsval) :
  truthy v = true →
  escapeMarkdown v =
    if is_string v then inr (escape_reserved (textOf v))
    else inl (TypeError "text.replace is not a function").
Proof.
  intros Hv. destruct v as [| |b|n| |s]; try discriminate Hv.
  - unfold escapeMarkdown. rewrite Hv. reflexivity.
  - unfold escapeMarkdown. rewrite Hv. reflexivity.
  - apply escapeMarkdown_string.
Qed.

Lemma rendered_number_ok (v : jsval) (d : string) :
  ∃ r, escapeMarkdown (opt_toString v ||| JStr d) = inr r.
Proof.
  assert (∃ s, opt_toString v ||| JStr d = JStr s) as [s ->].
  { destruct v; cbn [opt_toString]; try (eexists; reflexivity); apply js_or_strings. }
  rewrite escapeMarkdown_string. eexists; reflexivity.
Qed.

Lemma mapM_escape_outcome (emails : list string) (st : appState) :
  mapM_ (λ e, lift (escapeMarkdown (JStr e))) emails st
  = Outcome st [] (inr (map escape_reserved emails)).
Proof.
  induction emails as [|e emails IH]; [reflexivity|]. cbn [mapM_ map].
  rewrite escapeMarkdown_string, lift_inr, bind_ret.
  erewrite bind_eq by exact IH. reflexivity.
Qed.

Lemma renderRecord_outcome (b : rawRecord) (emails : list string) (st : appState) :
  ∃ r, renderRecord b emails st = Outcome st [] r
       ∧ if renderable b then ∃ msg, r = inr msg
         else r = inl (TypeError "text.replace is not a function").
Proof.
  unfold renderRecord, renderable, renderedRating, renderedReviews.
  destruct (rendered_number_ok (get b "rating") "N/A") as [rating ->].
  destruct (rendered_number_ok (get b "reviews") "0") as [reviews ->].
  rewrite !escapeMarkdown_truthy by (apply js_or_default_truthy; reflexivity).
  destruct (is_string (get b "title" ||| get b "name" ||| JStr "No Name")); cbn [andb];
    [|eexists; split; [reflexivity|reflexivity]].
  rewrite lift_inr, bind_ret.
  destruct (is_string (get b "address" ||| get b "street_address" ||| JStr "N/A"));
    cbn [andb]; [|eexists; split; [reflexivity|reflexivity]].
  rewrite lift_inr, bind_ret.
  destruct (is_string (get b "phone" ||| JStr "N/A"));
    cbn [andb]; [|eexists; split; [reflexivity|reflexivity]].
  rewrite lift_inr, bind_ret.
  destruct (is_string (get b "website" ||| get b "url" ||| JStr "N/A"));
    cbn [andb]; [|eexists; split; [reflexivity|reflexivity]].
  rewrite !lift_inr, !bind_ret.
  erewrite bind_eq by apply mapM_escape_outcome.
  eexists. split; [reflexivity|]. eexists. reflexivity.
Qed.

Lemma deliver_step (w : world) (chatId : Z) (b : rawRecord) (bs : list rawRecord)
    (st : appState) :
  let send := Webhook.sendTelegramMessage w in
  ∃ pages,
    sent pages = []
    ∧ if renderable b
      then ∃ msg,
             deliver send w chatId (b :: bs) st
             = Outcome (state_of (deliver send w chatId bs st))
                 (pages ++ TelegramSend (Message chatId msg markdown)
                        :: log (deliver send w chatId bs st))
                 (result (deliver send w chatId bs st))
      else deliver send w chatId (b :: bs) st
           = Outcome st pages (inl (TypeError "text.replace is not a function")).
Proof.
  intros send. cbn [deliver].
  assert (∃ pages emails,
            sent pages = []
            ∧ (if truthy (get b "website")
               then scrapeEmailsFromWebsite w (get b "website") else ret []) st
              = Outcome st pages (inr emails)) as (pages & emails & Hpages & Hscrape).
  { destruct (truthy (get b "website")).
    - destruct (scrape_outcome w (get b "website") st) as [emails ->].
      eexists _, _. split; [|reflexivity]. reflexivity.
    - exists [], []. split; reflexivity. }
  exists pages. split; [exact Hpages|].
  destruct (renderRecord_outcome b emails st) as (r & Hrender & Hr).
  destruct (renderable b).
  - destruct Hr as [msg ->]. exists msg.
    erewrite bind_eq by exact Hscrape. erewrite bind_eq by exact Hrender.
    erewrite bind_eq by apply webhook_send_outcome.
    cbn [state_of log result app]. reflexivity.
  - subst r. erewrite bind_eq by exact Hscrape.
    erewrite bind_eq_throw by exact Hrender.
    cbn [state_of log result]. rewrite app_nil_r. reflexivity.
Qed.

(** X12: the delivery loop of the webhook variant sends one message for each
    record up to the first one whose name, address, phone or website is not
    a string; there it stops with a [TypeError], the later records being
    left undelivered.  When every record is renderable all are delivered. *)
Theorem deliver_until_unrenderable (w : world) (chatId : Z)
    (good rest : list rawRecord) (st : appState) :
  Forall (λ b, renderable b = true) good →
  match rest with [] => True | bad :: _ => renderable bad = false end →
  let o := deliver (Webhook.sendTelegramMessage w) w chatId (good ++ rest) st in
  length (sent (log o)) = length good
  ∧ result o = match rest with
               | [] => inr tt
               | _ => inl (TypeError "text.replace is not a function")
               end.
Proof.
  intros Hgood Hrest o. subst o. induction Hgood as [|b good Hb Hgood IH].
  - cbn [app]. destruct rest as [|bad rest]; [split; reflexivity|].
    destruct (deliver_step w chatId bad rest st) as (pages & Hpages & Hstep).
    rewrite Hrest in Hstep. cbn zeta in Hstep. rewrite Hstep. cbn [log result].
    rewrite Hpages. split; reflexivity.
  - rewrite <- app_comm_cons.
    destruct (deliver_step w chatId b (good ++ rest) st) as (pages & Hpages & Hstep).
    rewrite Hb in Hstep. cbn zeta in Hstep. destruct Hstep as [msg ->].
    cbn [log result]. rewrite sent_app, Hpages.
    change (sent (TelegramSend ?m :: ?l)) with (m :: sent l).
    cbn [app length]. destruct IH as [-> ->]. split; reflexivity.
Qed.

Lemma deliver_until_unrenderable_witness :
  length (sent (log (deliver (Webhook.sendTelegramMessage
                                (World (λ _, None) (λ _, None) (λ _, true)))
                       (World (λ _, None) (λ _, None) (λ _, true)) 7
                       ([∅; {["title" := JStr "Acme"]}] ++ [{["phone" := JNum 5550100]}; ∅])
                       initial_state))) = 2.
Proof.
  apply (deliver_until_unrenderable (World (λ _, None) (λ _, None) (λ _, true)) 7
           [∅; {["title" := JStr "Acme"]}] [{["phone" := JNum 5550100]}; ∅] initial_state).
  - repeat constructor.
  - reflexivity.
Defined.

(** ** Engine adapter, country checks, order of the addresses *)

Lemma resultsOf_unknown_engine (engine : string) (data : serpData) :
  includes allowedEngines engine = false → resultsOf engine data = [].
Proof.
  unfold includes, allowedEngines, resultsOf. cbn [existsb].
  destruct (String.eqb engine "google_maps"); [discriminate|].
  destruct (String.eqb engine "google"); [discriminate|].
  destruct (String.eqb engine "bing_maps"); [discriminate|].
  destruct (String.eqb engine "apple_maps"); [discriminate|]. reflexivity.
Qed.

(** X14: [fetchBusinesses] never throws and never touches the kept result: it
    makes one search API request and returns the result list of the answer,
    which is empty when the request fails and when the engine is not one of
    the four known engines. *)
Theorem fetchBusinesses_swallows_failures (w : world) (q : string) (gl : region)
    (engine : string) (st : appState) :
  fetchBusinesses w q gl engine st
  = Outcome st [SerpRequest (serpRequest q gl engine)]
      (inr (upstreamResults w (serpRequest q gl engine)))
  ∧ (serp w (serpRequest q gl engine) = None
     → upstreamResults w (serpRequest q gl engine) = [])
  ∧ (includes allowedEngines engine = false
     → upstreamResults w (serpRequest q gl engine) = []).
Proof.
  split; [apply log_fetchBusinesses|]. unfold upstreamResults. split.
  - intros ->. reflexivity.
  - intros He. destruct (serp w _); [|reflexivity].
    apply resultsOf_unknown_engine, He.
Qed.

Lemma fetchBusinesses_swallows_failures_witness :
  serp (World (λ _, None) (λ _, None) (λ _, true)) (serpRequest "seo in usa" (RCode "us") "google")
  = None
  ∧ result (fetchBusinesses (World (λ _, None) (λ _, None) (λ _, true))
              "seo in usa" (RCode "us") "google" initial_state) = inr [].
Proof.
  split; [reflexivity|].
  rewrite (proj1 (fetchBusinesses_swallows_failures
                    (World (λ _, None) (λ _, None) (λ _, true))
                    "seo in usa" (RCode "us") "google" initial_state)).
  reflexivity.
Defined.

(** X16: a chat message that is empty or does not start with the sigil causes no
    request at all: the webhook handler answers [No message] or [Ignored],
    the polling listener returns. *)
Theorem chat_non_command_ignored (w : world) (chatId : Z) (text : string)
    (st : appState) :
  startsWith "/" text = false →
  Webhook.webhook w chatId text st
  = Outcome st []
      (inr (send_text 200 (if String.eqb text "" then "No message" else "Ignored")))
  ∧ Polling.onMessage w chatId text st = Outcome st [] (inr tt).
Proof.
  intros H.
  assert (String.eqb text "" || negb (startsWith "/" text) = true) as Hnot
    by (rewrite H; apply orb_true_r).
  split; [apply webhook_not_command, Hnot | apply onMessage_not_command, Hnot].
Qed.

Lemma chat_non_command_ignored_witness :
  startsWith "/" "hello" = false
  ∧ log (Webhook.webhook (World (λ _, None) (λ _, None) (λ _, true)) 7 "hello"
           initial_state) = [].
Proof.
  split; [reflexivity|].
  rewrite (proj1 (chat_non_command_ignored (World (λ _, None) (λ _, None) (λ _, true))
                    7 "hello" initial_state eq_refl)).
  reflexivity.
Defined.

Lemma includes_In (l : list string) (s : string) : includes l s = true ↔ s ∈ l.
Proof.
  unfold includes. rewrite existsb_exists. split.
  - intros (x & Hx & Heq). apply String.eqb_eq in Heq as ->. apply list_elem_of_In, Hx.
  - intros H. exists s. split; [apply list_elem_of_In, H | apply String.eqb_refl].
Qed.

(** X18: the country check of the webhook handler accepts exactly the four keys
    of the country table; each of them is also accepted by the polling
    listener and by [POST /search], and is mapped to its region code. *)
Theorem country_checks (country : string) :
  (Webhook.validCountry country = true ↔ country ∈ ["usa"; "uk"; "australia"; "canada"])
  ∧ (Webhook.validCountry country = true →
     Polling.validCountry country = true
     ∧ ∃ gl, countryMap_get country = RCode gl ∧ (country, gl) ∈ countryMap).
Proof.
  split; [apply includes_In|].
  intros H. apply includes_In in H. unfold countryMapKeys, countryMap in H. cbn [map fst] in H.
  rewrite !elem_of_cons in H.
  destruct H as [-> | [-> | [-> | [-> | H]]]]; [| | | |inversion H];
    (split; [reflexivity|]; eexists; split; [reflexivity|]);
    unfold countryMap; rewrite !elem_of_cons; tauto.
Qed.

Lemma country_checks_witness :
  Webhook.validCountry "uk" = true ∧ Polling.validCountry "uk" = true.
Proof.
  split; [reflexivity|]. apply (proj2 (country_checks "uk")). reflexivity.
Defined.

Lemma header_safe_uint (d : Decimal.uint) :
  header_safe (NilEmpty.string_of_uint d) = true.
Proof.
  unfold header_safe.
  induction d as [|d IH|d IH|d IH|d IH|d IH|d IH|d IH|d IH|d IH|d IH];
    cbn [NilEmpty.string_of_uint string_forall]; [reflexivity | rewrite IH; reflexivity ..].
Qed.

Lemma header_safe_nilzero (d : Decimal.uint) :
  header_safe (NilZero.string_of_uint d) = true.
Proof. destruct d; [reflexivity | apply header_safe_uint ..]. Qed.

Lemma header_safe_numberToString (n : Z) : header_safe (numberToString n) = true.
Proof.
  unfold numberToString, NilZero.string_of_int.
  destruct (Z.to_int n) as [d|d]; [apply header_safe_nilzero|].
  pose proof (header_safe_nilzero d) as H. unfold header_safe in *.
  cbn [string_forall]. rewrite H. reflexivity.
Qed.

Lemma header_safe_toString (v : jsval) :
  is_string v = false → header_safe (toString v) = true.
Proof.
  destruct v as [| |[]|n| |s]; try reflexivity; [|discriminate].
  intros _. apply header_safe_numberToString.
Qed.

(** X22: [POST /download-excel] on a non-empty list answers with a workbook of
    one sheet, [Businesses], holding exactly the rows it was given, as an
    attachment named by the [filename] member ([businesses.xlsx] only when
    that member is [undefined]), unless the name holds a code unit a header
    cannot carry: then setting the header throws and the answer is 500.  A
    name that is missing, [null], a boolean or a number never does. *)
Theorem webhook_export_rows (rows : list (gmap string jsval)) (filename : jsval) :
  rows ≠ [] →
  let name := match filename with
              | JUndefined => "businesses.xlsx"
              | v => toString v
              end in
  Webhook.download_excel (Webhook.ExportBody (Array rows) filename)
  = (if header_safe name
     then Response 200 (xlsxHeaders name) (Workbook "Businesses" rows)
     else uncaught (TypeError "Invalid character in header content"))
  ∧ (is_string filename = false → header_safe name = true).
Proof.
  intros Hrows name. split.
  - unfold Webhook.download_excel. cbn [Webhook.x_businesses Webhook.x_filename].
    destruct rows as [|row rows]; [contradiction|].
    cbn [arg_truthy isArray rows_of length Nat.eqb negb orb].
    rewrite send_workbook_cases. subst name. destruct filename; reflexivity.
  - intros Hns. subst name.
    destruct filename; [reflexivity | apply header_safe_toString; exact Hns ..].
Qed.

Lemma webhook_export_rows_witness :
  [normalize ∅] ≠ []
  ∧ Webhook.download_excel (Webhook.ExportBody (Array [normalize ∅]) JNull)
    = Response 200 (xlsxHeaders "null") (Workbook "Businesses" [normalize ∅]).
Proof.
  split; [discriminate|].
  apply (proj1 (webhook_export_rows [normalize ∅] JNull ltac:(discriminate))).
Defined.

Lemma fold_set_add (l acc : list string) :
  fold_left set_add l acc = acc ++ filter (λ t, t ∉ acc) (setOf l).
Proof.
  revert acc. induction l as [|x l IH]; intros acc; cbn [fold_left setOf].
  - rewrite filter_nil, app_nil_r. reflexivity.
  - rewrite IH, filter_cons, list_filter_filter. unfold set_add.
    case_bool_decide as Hx; case_decide as Hx'; try contradiction.
    + f_equal. apply list_filter_iff. intros t. split; [|tauto].
      intros Ht. split; [exact Ht | intros ->; contradiction].
    + rewrite <- app_assoc. cbn [app]. do 2 f_equal.
      apply list_filter_iff. intros t.
      rewrite not_elem_of_app, not_elem_of_cons. split; [tauto|].
      intros [Ht Hne]. split; [exact Ht|]. split; [exact Hne | apply not_elem_of_nil].
Qed.

Lemma filter_other_nil (l : list string) : filter (λ t, t ∉ []) l = l.
Proof.
  induction l as [|x l IH]; [reflexivity|].
  rewrite filter_cons. case_decide as Hx; [rewrite IH; reflexivity|].
  inversion Hx.
Qed.

Lemma setOf_insertion_order (l : list string) : setOf l = insertion_order l.
Proof.
  unfold insertion_order. rewrite fold_set_add. cbn [app].
  symmetry. apply filter_other_nil.
Qed.

(** X21: the extracted addresses come in the order of their first matches in
    the document: the list is what a set built from the matches of the scan,
    one insertion after the other, enumerates. *)
Theorem extractEmails_order (doc : string) :
  ∃ matches,
    scan doc matches
    ∧ (∀ ms, scan doc ms → ms = matches)
    ∧ extractEmails (JStr doc) = inr (insertion_order matches).
Proof.
  exists (matchAll emailRegex doc). split; [apply scan_matchAll|].
  split; [apply scan_unique, scan_matchAll|].
  cbn [extractEmails]. rewrite setOf_insertion_order. reflexivity.
Qed.
